(** * Abstract syntax tree nodes and their traversal

    A shallow embedding of [Drivers/AstNodes.hpp]: the [unique_vector]
    helper container, the node classes with their owning pointers, and the
    [Walk] traversal protocol the classes declare. *)

From Stdlib Require Import String NArith.
From Stdlib Require Import List Bool Arith Lia.
Import ListNotations.

Set Implicit Arguments.

(** ** Owning pointers and the [unique_vector] container *)

(** [std::unique_ptr<T>]: either null or the owner of exactly one [T]. *)
Definition unique_ptr (T : Type) : Type := option T.

Abbreviation nullptr := None (only parsing).

(** [unique_vector<T>] publicly derives from
    [std::vector<std::unique_ptr<T>>]: a sequence of owning pointers.  The
    element type does not exclude a null pointer. *)
Definition unique_vector (T : Type) : Type := list (unique_ptr T).

Module unique_vector.

(** [bool push_back(std::unique_ptr<T> ptr)]: the container is passed
    explicitly and returned next to the result.
<<
    if (ptr) { vector::push_back(std::move(ptr)); return true; }
    return false;
>> *)
Definition push_back {T : Type} (this : unique_vector T) (ptr : unique_ptr T)
  : unique_vector T * bool :=
  match ptr with
  | Some _ => (this ++ [ptr], true)
  | None => (this, false)
  end.

(** A run of [push_back] calls, the results dropped (as in a [while] loop
    whose body is empty). *)
Definition push_all {T : Type} (this : unique_vector T) (ptrs : list (unique_ptr T))
  : unique_vector T :=
  fold_left (fun v p => fst (push_back v p)) ptrs this.

(** The container stores no null pointer. *)
Definition holds_no_null {T : Type} (this : unique_vector T) : bool :=
  forallb (fun p => match p with Some _ => true | None => false end) this.

(** The test [if (ptr)]: [std::unique_ptr]'s conversion to [bool]. *)
Definition is_present {T : Type} (ptr : unique_ptr T) : bool :=
  match ptr with Some _ => true | None => false end.

(** A run of [push_back] calls with the results kept, in call order. *)
Fixpoint push_each {T : Type} (this : unique_vector T) (ptrs : list (unique_ptr T))
  : unique_vector T * list bool :=
  match ptrs with
  | [] => (this, [])
  | ptr :: rest =>
      let (this', inserted) := push_back this ptr in
      let (final, results) := push_each this' rest in
      (final, inserted :: results)
  end.

End unique_vector.

(** ** Node classes *)

(** Modelled from the spec: [Token] is declared in [Driver1.hpp], which is
    not among the sources.  The spec describes it as a lexical unit: the
    lexeme text, its source position and its lexical kind.  Nodes store
    tokens verbatim and never inspect them. *)
Record Token : Type := { lexeme : string; location : N; kind : N }.

(** Every class below derives from [AbstractNode].  None has a pure
    virtual member, so the bases [AbstractNode], [StatementNode],
    [ExpressionNode] and [PostExpressionNode] can be instantiated too.

    A class that some owning pointer names statically ([TypeNode],
    [ExpressionNode], [VariableNode], [ParameterNode], [ScopeNode],
    [IfNode]) is a type of its own; a [unique_ptr<C>] field then holds
    exactly the objects of [C] and of the classes derived from [C].  The
    constructors of a type are the classes derived from it, with their
    fields in declaration order, inherited fields first. *)

(** [class TypeNode : public AbstractNode]; [size_t mPointerCount]. *)
Inductive TypeNode : Type :=
| Build_TypeNode (mName : Token) (mPointerCount : N).

Unset Elimination Schemes.

(** [class ExpressionNode : public StatementNode] and the classes derived
    from it.  [PostExpressionNode] declares [mLeft]; [MemberAccessNode],
    [CallNode], [CastNode] and [IndexNode] inherit it. *)
Inductive ExpressionNode : Type :=
| ExpressionNode_base
| ValueNode (mToken : Token)
| BinaryOperatorNode (mOperator : Token) (mLeft mRight : unique_ptr ExpressionNode)
| UnaryOperatorNode (mOperator : Token) (mRight : unique_ptr ExpressionNode)
| PostExpressionNode (mLeft : unique_ptr ExpressionNode)
| MemberAccessNode (mLeft : unique_ptr ExpressionNode) (mOperator mName : Token)
| CallNode (mLeft : unique_ptr ExpressionNode) (mArguments : unique_vector ExpressionNode)
| CastNode (mLeft : unique_ptr ExpressionNode) (mType : unique_ptr TypeNode)
| IndexNode (mLeft : unique_ptr ExpressionNode) (mIndex : unique_ptr ExpressionNode).

Set Elimination Schemes.

(** [class VariableNode : public StatementNode]. *)
Inductive VariableNode : Type :=
| Build_VariableNode (mName : Token) (mType : unique_ptr TypeNode)
    (mInitialValue : unique_ptr ExpressionNode).

(** [class ParameterNode : public AbstractNode]. *)
Inductive ParameterNode : Type :=
| Build_ParameterNode (mName : Token) (mType : unique_ptr TypeNode).

Unset Elimination Schemes.

(** [class StatementNode : public AbstractNode] and the classes derived
    from it.  [Statement_Variable], [Statement_Scope],
    [Statement_Expression] and [Statement_If] are the implicit conversions
    from a derived class that has a type of its own. *)
Inductive StatementNode : Type :=
| StatementNode_base
| Statement_Variable (v : VariableNode)
| Statement_Scope (s : ScopeNode)
| LabelNode (mName : Token)
| GotoNode (mName : Token)
| ReturnNode (mReturnValue : unique_ptr ExpressionNode)
| BreakNode
| ContinueNode
| Statement_Expression (e : ExpressionNode)
| Statement_If (i : IfNode)
| WhileNode (mCondition : unique_ptr ExpressionNode) (mScope : unique_ptr ScopeNode)
| ForNode (mInitialVariable : unique_ptr VariableNode)
    (mInitialExpression mCondition mIterator : unique_ptr ExpressionNode)
    (mScope : unique_ptr ScopeNode)

with ScopeNode : Type :=
| Build_ScopeNode (mStatements : unique_vector StatementNode)

with IfNode : Type :=
| Build_IfNode (mCondition : unique_ptr ExpressionNode) (mScope : unique_ptr ScopeNode)
    (mElse : unique_ptr IfNode).

(** [class AbstractNode] and the classes derived from it. *)
Inductive AbstractNode : Type :=
| AbstractNode_base
| BlockNode (mGlobals : unique_vector AbstractNode)
| ClassNode (mName : Token) (mMembers : unique_vector AbstractNode)
| Abstract_Statement (s : StatementNode)
| Abstract_Type (t : TypeNode)
| Abstract_Parameter (p : ParameterNode)
| FunctionNode (mName : Token) (mParameters : unique_vector ParameterNode)
    (mReturnType : unique_ptr TypeNode) (mScope : unique_ptr ScopeNode).

Set Elimination Schemes.

(** The conversions of a derived-class object to [AbstractNode]. *)
Definition Abstract_Expression (e : ExpressionNode) : AbstractNode :=
  Abstract_Statement (Statement_Expression e).
Definition Abstract_Variable (v : VariableNode) : AbstractNode :=
  Abstract_Statement (Statement_Variable v).
Definition Abstract_Scope (s : ScopeNode) : AbstractNode :=
  Abstract_Statement (Statement_Scope s).
Definition Abstract_If (i : IfNode) : AbstractNode :=
  Abstract_Statement (Statement_If i).

(** Field access on an [IfNode]. *)
Definition If_mCondition (i : IfNode) : unique_ptr ExpressionNode :=
  match i with Build_IfNode mCondition _ _ => mCondition end.
Definition If_mScope (i : IfNode) : unique_ptr ScopeNode :=
  match i with Build_IfNode _ mScope _ => mScope end.
Definition If_mElse (i : IfNode) : unique_ptr IfNode :=
  match i with Build_IfNode _ _ mElse => mElse end.

(** The node classes, as the header forward-declares them. *)
Inductive NodeClass : Type :=
| IsAbstract | IsBlock | IsClass | IsStatement | IsVariable | IsScope
| IsParameter | IsFunction | IsType | IsLabel | IsGoto | IsReturn | IsBreak
| IsContinue | IsExpression | IsIf | IsWhile | IsFor | IsValue
| IsBinaryOperator | IsUnaryOperator | IsPostExpression | IsMemberAccess
| IsCall | IsCast | IsIndex.

(** The dynamic class of an object. *)
Definition class_of_Expression (e : ExpressionNode) : NodeClass :=
  match e with
  | ExpressionNode_base => IsExpression
  | ValueNode _ => IsValue
  | BinaryOperatorNode _ _ _ => IsBinaryOperator
  | UnaryOperatorNode _ _ => IsUnaryOperator
  | PostExpressionNode _ => IsPostExpression
  | MemberAccessNode _ _ _ => IsMemberAccess
  | CallNode _ _ => IsCall
  | CastNode _ _ => IsCast
  | IndexNode _ _ => IsIndex
  end.

Definition class_of_Statement (s : StatementNode) : NodeClass :=
  match s with
  | StatementNode_base => IsStatement
  | Statement_Variable _ => IsVariable
  | Statement_Scope _ => IsScope
  | LabelNode _ => IsLabel
  | GotoNode _ => IsGoto
  | ReturnNode _ => IsReturn
  | BreakNode => IsBreak
  | ContinueNode => IsContinue
  | Statement_Expression e => class_of_Expression e
  | Statement_If _ => IsIf
  | WhileNode _ _ => IsWhile
  | ForNode _ _ _ _ _ => IsFor
  end.

Definition class_of (n : AbstractNode) : NodeClass :=
  match n with
  | AbstractNode_base => IsAbstract
  | BlockNode _ => IsBlock
  | ClassNode _ _ => IsClass
  | Abstract_Statement s => class_of_Statement s
  | Abstract_Type _ => IsType
  | Abstract_Parameter _ => IsParameter
  | FunctionNode _ _ _ _ => IsFunction
  end.

(** ** Owned children, in declaration order *)

(** A node owns what its [std::unique_ptr] fields and the entries of its
    [unique_vector] fields point to.  The fields are taken in declaration
    order, an inherited field first. *)

(** A slot contributes its pointee when it is populated. *)
Definition present {T : Type} (up : T -> AbstractNode) (slot : unique_ptr T)
  : list AbstractNode :=
  match slot with Some child => [up child] | None => [] end.

Definition present_each {T : Type} (up : T -> AbstractNode) (slots : unique_vector T)
  : list AbstractNode :=
  flat_map (present up) slots.

(** The owned children of an [ExpressionNode], by class. *)
Definition children_Expression (e : ExpressionNode) : list AbstractNode :=
  match e with
  | ExpressionNode_base => []
  | ValueNode _ => []
  | BinaryOperatorNode _ mLeft mRight =>
      present Abstract_Expression mLeft ++ present Abstract_Expression mRight
  | UnaryOperatorNode _ mRight => present Abstract_Expression mRight
  | PostExpressionNode mLeft => present Abstract_Expression mLeft
  | MemberAccessNode mLeft _ _ => present Abstract_Expression mLeft
  | CallNode mLeft mArguments =>
      present Abstract_Expression mLeft ++ present_each Abstract_Expression mArguments
  | CastNode mLeft mType =>
      present Abstract_Expression mLeft ++ present Abstract_Type mType
  | IndexNode mLeft mIndex =>
      present Abstract_Expression mLeft ++ present Abstract_Expression mIndex
  end.

(** A [VariableNode] owns its type and its initializer. *)
Definition children_Variable (v : VariableNode) : list AbstractNode :=
  match v with
  | Build_VariableNode _ mType mInitialValue =>
      present Abstract_Type mType ++ present Abstract_Expression mInitialValue
  end.

(** A [ParameterNode] owns its type. *)
Definition children_Parameter (p : ParameterNode) : list AbstractNode :=
  match p with
  | Build_ParameterNode _ mType => present Abstract_Type mType
  end.

(** A [ScopeNode] owns its statements. *)
Definition children_Scope (s : ScopeNode) : list AbstractNode :=
  match s with
  | Build_ScopeNode mStatements => present_each Abstract_Statement mStatements
  end.

(** An [IfNode] owns its condition, its scope and its else. *)
Definition children_If (i : IfNode) : list AbstractNode :=
  match i with
  | Build_IfNode mCondition mScope mElse =>
      present Abstract_Expression mCondition ++ present Abstract_Scope mScope
      ++ present Abstract_If mElse
  end.

(** The owned children of a [StatementNode], by class. *)
Definition children_Statement (s : StatementNode) : list AbstractNode :=
  match s with
  | StatementNode_base => []
  | Statement_Variable v => children_Variable v
  | Statement_Scope s => children_Scope s
  | LabelNode _ => []
  | GotoNode _ => []
  | ReturnNode mReturnValue => present Abstract_Expression mReturnValue
  | BreakNode => []
  | ContinueNode => []
  | Statement_Expression e => children_Expression e
  | Statement_If i => children_If i
  | WhileNode mCondition mScope =>
      present Abstract_Expression mCondition ++ present Abstract_Scope mScope
  | ForNode mInitialVariable mInitialExpression mCondition mIterator mScope =>
      present Abstract_Variable mInitialVariable
      ++ present Abstract_Expression mInitialExpression
      ++ present Abstract_Expression mCondition
      ++ present Abstract_Expression mIterator
      ++ present Abstract_Scope mScope
  end.

(** The owned children of any node, by class. *)
Definition children (n : AbstractNode) : list AbstractNode :=
  match n with
  | AbstractNode_base => []
  | BlockNode mGlobals => present_each (fun g => g) mGlobals
  | ClassNode _ mMembers => present_each (fun m => m) mMembers
  | Abstract_Statement s => children_Statement s
  | Abstract_Type _ => []
  | Abstract_Parameter p => children_Parameter p
  | FunctionNode _ mParameters mReturnType mScope =>
      present_each Abstract_Parameter mParameters
      ++ present Abstract_Type mReturnType
      ++ present Abstract_Scope mScope
  end.

(** A position in a tree: the indices, among the owned children, to follow
    from the root. *)
Definition Position : Type := list nat.

(** The node at a position, if the tree has one there. *)
Fixpoint subnode_at (root : AbstractNode) (pos : Position) : option AbstractNode :=
  match pos with
  | [] => Some root
  | i :: rest =>
      match nth_error (children root) i with
      | Some child => subnode_at child rest
      | None => None
      end
  end.

(** ** Slots *)

(** An owning pointer of a node, a field or an entry of a [unique_vector]
    field, with what it owns seen as an [AbstractNode].  The header marks
    the fields that may be null with [// Can be null]; the other fields
    carry no such mark, and [push_back] keeps null out of a
    [unique_vector]. *)
Inductive Slot : Type :=
| Nullable (owned : unique_ptr AbstractNode)
| Required (owned : unique_ptr AbstractNode).

Definition owned_by (slot : Slot) : unique_ptr AbstractNode :=
  match slot with Nullable owned => owned | Required owned => owned end.

Definition is_required (slot : Slot) : bool :=
  match slot with Nullable _ => false | Required _ => true end.

Definition nullable {T : Type} (up : T -> AbstractNode) (field : unique_ptr T) : Slot :=
  Nullable (option_map up field).

Definition required {T : Type} (up : T -> AbstractNode) (field : unique_ptr T) : Slot :=
  Required (option_map up field).

Definition entries {T : Type} (up : T -> AbstractNode) (field : unique_vector T)
  : list Slot :=
  map (required up) field.

(** The slots of an [ExpressionNode], by class. *)
Definition slots_Expression (e : ExpressionNode) : list Slot :=
  match e with
  | ExpressionNode_base => []
  | ValueNode _ => []
  | BinaryOperatorNode _ mLeft mRight =>
      [required Abstract_Expression mLeft; required Abstract_Expression mRight]
  | UnaryOperatorNode _ mRight => [required Abstract_Expression mRight]
  | PostExpressionNode mLeft => [required Abstract_Expression mLeft]
  | MemberAccessNode mLeft _ _ => [required Abstract_Expression mLeft]
  | CallNode mLeft mArguments =>
      required Abstract_Expression mLeft :: entries Abstract_Expression mArguments
  | CastNode mLeft mType =>
      [required Abstract_Expression mLeft; required Abstract_Type mType]
  | IndexNode mLeft mIndex =>
      [required Abstract_Expression mLeft; required Abstract_Expression mIndex]
  end.

Definition slots_Variable (v : VariableNode) : list Slot :=
  match v with
  | Build_VariableNode _ mType mInitialValue =>
      [required Abstract_Type mType; nullable Abstract_Expression mInitialValue]
  end.

Definition slots_Parameter (p : ParameterNode) : list Slot :=
  match p with
  | Build_ParameterNode _ mType => [required Abstract_Type mType]
  end.

Definition slots_Scope (s : ScopeNode) : list Slot :=
  match s with
  | Build_ScopeNode mStatements => entries Abstract_Statement mStatements
  end.

Definition slots_If (i : IfNode) : list Slot :=
  match i with
  | Build_IfNode mCondition mScope mElse =>
      [nullable Abstract_Expression mCondition; required Abstract_Scope mScope;
       nullable Abstract_If mElse]
  end.

(** The slots of a [StatementNode], by class. *)
Definition slots_Statement (s : StatementNode) : list Slot :=
  match s with
  | StatementNode_base => []
  | Statement_Variable v => slots_Variable v
  | Statement_Scope s => slots_Scope s
  | LabelNode _ => []
  | GotoNode _ => []
  | ReturnNode mReturnValue => [nullable Abstract_Expression mReturnValue]
  | BreakNode => []
  | ContinueNode => []
  | Statement_Expression e => slots_Expression e
  | Statement_If i => slots_If i
  | WhileNode mCondition mScope =>
      [required Abstract_Expression mCondition; required Abstract_Scope mScope]
  | ForNode mInitialVariable mInitialExpression mCondition mIterator mScope =>
      [nullable Abstract_Variable mInitialVariable;
       nullable Abstract_Expression mInitialExpression;
       nullable Abstract_Expression mCondition;
       nullable Abstract_Expression mIterator;
       required Abstract_Scope mScope]
  end.

(** The slots of any node, by class. *)
Definition slots (n : AbstractNode) : list Slot :=
  match n with
  | AbstractNode_base => []
  | BlockNode mGlobals => entries (fun g => g) mGlobals
  | ClassNode _ mMembers => entries (fun m => m) mMembers
  | Abstract_Statement s => slots_Statement s
  | Abstract_Type _ => []
  | Abstract_Parameter p => slots_Parameter p
  | FunctionNode _ mParameters mReturnType mScope =>
      entries Abstract_Parameter mParameters
      ++ [nullable Abstract_Type mReturnType; required Abstract_Scope mScope]
  end.

(** What a list of slots owns. *)
Definition populated (slots : list Slot) : list AbstractNode :=
  flat_map (fun slot => present (fun child => child) (owned_by slot)) slots.

(** ** Pre-order listing *)

(** The expected listing of the spec: the nodes of a tree, each parent
    before its owned children and the children in the declaration order of
    their fields.  An unpopulated slot lists nothing. *)
Definition list_slot {T A : Type} (listing : T -> list A) (slot : unique_ptr T) : list A :=
  match slot with Some child => listing child | None => [] end.

Definition list_each {T A : Type} (listing : T -> list A) (slots : unique_vector T)
  : list A :=
  flat_map (list_slot listing) slots.

(** Modelled from the spec: the pre-order listing of a Type. *)
Definition preorder_Type (t : TypeNode) : list AbstractNode := [Abstract_Type t].

(** Modelled from the spec: the pre-order listing of an Expression; for a
    BinaryOperator left before right, for a Call the callee before the
    arguments front to back. *)
Fixpoint preorder_Expression (e : ExpressionNode) : list AbstractNode :=
  Abstract_Expression e ::
  match e with
  | ExpressionNode_base => []
  | ValueNode _ => []
  | BinaryOperatorNode _ mLeft mRight =>
      list_slot preorder_Expression mLeft ++ list_slot preorder_Expression mRight
  | UnaryOperatorNode _ mRight => list_slot preorder_Expression mRight
  | PostExpressionNode mLeft => list_slot preorder_Expression mLeft
  | MemberAccessNode mLeft _ _ => list_slot preorder_Expression mLeft
  | CallNode mLeft mArguments =>
      list_slot preorder_Expression mLeft ++ list_each preorder_Expression mArguments
  | CastNode mLeft mType =>
      list_slot preorder_Expression mLeft ++ list_slot preorder_Type mType
  | IndexNode mLeft mIndex =>
      list_slot preorder_Expression mLeft ++ list_slot preorder_Expression mIndex
  end.

(** Modelled from the spec: the pre-order listing of a Variable. *)
Definition preorder_Variable (v : VariableNode) : list AbstractNode :=
  Abstract_Variable v ::
  match v with
  | Build_VariableNode _ mType mInitialValue =>
      list_slot preorder_Type mType ++ list_slot preorder_Expression mInitialValue
  end.

(** Modelled from the spec: the pre-order listing of a Parameter. *)
Definition preorder_Parameter (p : ParameterNode) : list AbstractNode :=
  Abstract_Parameter p ::
  match p with
  | Build_ParameterNode _ mType => list_slot preorder_Type mType
  end.

(** Modelled from the spec: the pre-order listing of a Statement; for an If
    the condition if present, then the then-scope, then the else if
    present. *)
Fixpoint preorder_Statement (s : StatementNode) : list AbstractNode :=
  match s with
  | Statement_Variable v => preorder_Variable v
  | Statement_Scope sc => preorder_Scope sc
  | Statement_Expression e => preorder_Expression e
  | Statement_If i => preorder_If i
  | ReturnNode mReturnValue =>
      Abstract_Statement s :: list_slot preorder_Expression mReturnValue
  | WhileNode mCondition mScope =>
      Abstract_Statement s ::
      list_slot preorder_Expression mCondition ++ list_slot preorder_Scope mScope
  | ForNode mInitialVariable mInitialExpression mCondition mIterator mScope =>
      Abstract_Statement s ::
      list_slot preorder_Variable mInitialVariable
      ++ list_slot preorder_Expression mInitialExpression
      ++ list_slot preorder_Expression mCondition
      ++ list_slot preorder_Expression mIterator
      ++ list_slot preorder_Scope mScope
  | StatementNode_base | LabelNode _ | GotoNode _ | BreakNode | ContinueNode =>
      [Abstract_Statement s]
  end

with preorder_Scope (sc : ScopeNode) : list AbstractNode :=
  Abstract_Scope sc ::
  match sc with
  | Build_ScopeNode mStatements => list_each preorder_Statement mStatements
  end

with preorder_If (i : IfNode) : list AbstractNode :=
  Abstract_If i ::
  match i with
  | Build_IfNode mCondition mScope mElse =>
      list_slot preorder_Expression mCondition ++ list_slot preorder_Scope mScope
      ++ list_slot preorder_If mElse
  end.

(** Modelled from the spec: the pre-order listing of any node. *)
Fixpoint preorder (n : AbstractNode) : list AbstractNode :=
  match n with
  | AbstractNode_base => [n]
  | BlockNode mGlobals => n :: list_each preorder mGlobals
  | ClassNode _ mMembers => n :: list_each preorder mMembers
  | Abstract_Statement s => preorder_Statement s
  | Abstract_Type t => preorder_Type t
  | Abstract_Parameter p => preorder_Parameter p
  | FunctionNode _ mParameters mReturnType mScope =>
      n :: list_each preorder_Parameter mParameters
        ++ list_slot preorder_Type mReturnType
        ++ list_slot preorder_Scope mScope
  end.

(** ** Well-formed trees *)

(** The header has no well-formedness check.  The spec calls a tree
    well-formed when every mandatory child slot is populated, recursively,
    throughout, and requires every ordered-list container to hold only
    non-absent entries.  Of the owning pointers, the optional ones are the
    fields the header marks [// Can be null]:
    [VariableNode::mInitialValue], [FunctionNode::mReturnType],
    [ReturnNode::mReturnValue], [IfNode::mCondition], [IfNode::mElse] and,
    in [ForNode], [mInitialVariable], [mInitialExpression], [mCondition]
    and [mIterator].  Every other owning pointer is mandatory, the [mType]
    of a Variable, a Parameter and a Cast among them. *)

(** An optional slot is in order when absent. *)
Definition optional {T : Type} (ok : T -> bool) (slot : unique_ptr T) : bool :=
  match slot with Some child => ok child | None => true end.

(** A mandatory slot is not. *)
Definition mandatory {T : Type} (ok : T -> bool) (slot : unique_ptr T) : bool :=
  match slot with Some child => ok child | None => false end.

(** No entry of an ordered list is absent. *)
Definition each {T : Type} (ok : T -> bool) (slots : unique_vector T) : bool :=
  forallb (mandatory ok) slots.

(** Modelled from the spec: a Type has no child slot. *)
Definition well_formed_Type (t : TypeNode) : bool := true.

(** Modelled from the spec: well-formed Expressions. *)
Fixpoint well_formed_Expression (e : ExpressionNode) : bool :=
  match e with
  | ExpressionNode_base => true
  | ValueNode _ => true
  | BinaryOperatorNode _ mLeft mRight =>
      mandatory well_formed_Expression mLeft && mandatory well_formed_Expression mRight
  | UnaryOperatorNode _ mRight => mandatory well_formed_Expression mRight
  | PostExpressionNode mLeft => mandatory well_formed_Expression mLeft
  | MemberAccessNode mLeft _ _ => mandatory well_formed_Expression mLeft
  | CallNode mLeft mArguments =>
      mandatory well_formed_Expression mLeft && each well_formed_Expression mArguments
  | CastNode mLeft mType =>
      mandatory well_formed_Expression mLeft && mandatory well_formed_Type mType
  | IndexNode mLeft mIndex =>
      mandatory well_formed_Expression mLeft && mandatory well_formed_Expression mIndex
  end.

(** Modelled from the spec: well-formed Variables. *)
Definition well_formed_Variable (v : VariableNode) : bool :=
  match v with
  | Build_VariableNode _ mType mInitialValue =>
      mandatory well_formed_Type mType && optional well_formed_Expression mInitialValue
  end.

(** Modelled from the spec: well-formed Parameters. *)
Definition well_formed_Parameter (p : ParameterNode) : bool :=
  match p with
  | Build_ParameterNode _ mType => mandatory well_formed_Type mType
  end.

(** Modelled from the spec: well-formed Statements, Scopes and Ifs. *)
Fixpoint well_formed_Statement (s : StatementNode) : bool :=
  match s with
  | Statement_Variable v => well_formed_Variable v
  | Statement_Scope sc => well_formed_Scope sc
  | Statement_Expression e => well_formed_Expression e
  | Statement_If i => well_formed_If i
  | ReturnNode mReturnValue => optional well_formed_Expression mReturnValue
  | WhileNode mCondition mScope =>
      mandatory well_formed_Expression mCondition && mandatory well_formed_Scope mScope
  | ForNode mInitialVariable mInitialExpression mCondition mIterator mScope =>
      optional well_formed_Variable mInitialVariable
      && optional well_formed_Expression mInitialExpression
      && optional well_formed_Expression mCondition
      && optional well_formed_Expression mIterator
      && mandatory well_formed_Scope mScope
  | StatementNode_base | LabelNode _ | GotoNode _ | BreakNode | ContinueNode => true
  end

with well_formed_Scope (sc : ScopeNode) : bool :=
  match sc with
  | Build_ScopeNode mStatements => each well_formed_Statement mStatements
  end

with well_formed_If (i : IfNode) : bool :=
  match i with
  | Build_IfNode mCondition mScope mElse =>
      optional well_formed_Expression mCondition
      && mandatory well_formed_Scope mScope
      && optional well_formed_If mElse
  end.

(** Modelled from the spec: well-formed trees. *)
Fixpoint well_formed (n : AbstractNode) : bool :=
  match n with
  | AbstractNode_base => true
  | BlockNode mGlobals => each well_formed mGlobals
  | ClassNode _ mMembers => each well_formed mMembers
  | Abstract_Statement s => well_formed_Statement s
  | Abstract_Type t => well_formed_Type t
  | Abstract_Parameter p => well_formed_Parameter p
  | FunctionNode _ mParameters mReturnType mScope =>
      each well_formed_Parameter mParameters
      && optional well_formed_Type mReturnType
      && mandatory well_formed_Scope mScope
  end.


(** ** The listing with its holes *)

(** A raw, non-owning [T*]. *)
Definition pointer (T : Type) : Type := option T.

(** The nodes a list of pointers names, the null entries left out. *)
Definition nodes_of {A : Type} (l : list (pointer A)) : list A :=
  flat_map (fun p => match p with Some node => [node] | None => [] end) l.

(** No entry is null. *)
Definition no_hole {A : Type} (l : list (pointer A)) : bool :=
  forallb (fun p => match p with Some _ => true | None => false end) l.

(** The nodes named before the first null entry. *)
Fixpoint before_hole {A : Type} (l : list (pointer A)) : list A :=
  match l with
  | Some node :: rest => node :: before_hole rest
  | _ => []
  end.

(** A mandatory slot lists its pointee, or a null when it is a hole. *)
Definition hole_or {T A : Type} (listing : T -> list (pointer A)) (slot : unique_ptr T)
  : list (pointer A) :=
  match slot with Some child => listing child | None => [nullptr] end.

Definition hole_or_each {T A : Type} (listing : T -> list (pointer A))
    (slots : unique_vector T) : list (pointer A) :=
  flat_map (hole_or listing) slots.

(** Modelled from the spec: the pre-order listing once more, with a null
    entry at the place of every hole, that is of every unpopulated
    mandatory slot and every null entry of an ordered list.  A traversal
    that fails fast gets as far as the first null entry and no further. *)
Definition itinerary_Type (t : TypeNode) : list (pointer AbstractNode) :=
  [Some (Abstract_Type t)].

(** Modelled from the spec: the listing with its holes, of an Expression. *)
Fixpoint itinerary_Expression (e : ExpressionNode) : list (pointer AbstractNode) :=
  Some (Abstract_Expression e) ::
  match e with
  | ExpressionNode_base => []
  | ValueNode _ => []
  | BinaryOperatorNode _ mLeft mRight =>
      hole_or itinerary_Expression mLeft ++ hole_or itinerary_Expression mRight
  | UnaryOperatorNode _ mRight => hole_or itinerary_Expression mRight
  | PostExpressionNode mLeft => hole_or itinerary_Expression mLeft
  | MemberAccessNode mLeft _ _ => hole_or itinerary_Expression mLeft
  | CallNode mLeft mArguments =>
      hole_or itinerary_Expression mLeft ++ hole_or_each itinerary_Expression mArguments
  | CastNode mLeft mType =>
      hole_or itinerary_Expression mLeft ++ hole_or itinerary_Type mType
  | IndexNode mLeft mIndex =>
      hole_or itinerary_Expression mLeft ++ hole_or itinerary_Expression mIndex
  end.

(** Modelled from the spec: the listing with its holes, of a Variable. *)
Definition itinerary_Variable (v : VariableNode) : list (pointer AbstractNode) :=
  Some (Abstract_Variable v) ::
  match v with
  | Build_VariableNode _ mType mInitialValue =>
      hole_or itinerary_Type mType ++ list_slot itinerary_Expression mInitialValue
  end.

(** Modelled from the spec: the listing with its holes, of a Parameter. *)
Definition itinerary_Parameter (p : ParameterNode) : list (pointer AbstractNode) :=
  Some (Abstract_Parameter p) ::
  match p with
  | Build_ParameterNode _ mType => hole_or itinerary_Type mType
  end.

(** Modelled from the spec: the listing with its holes, of a Statement, a
    Scope and an If. *)
Fixpoint itinerary_Statement (s : StatementNode) : list (pointer AbstractNode) :=
  match s with
  | Statement_Variable v => itinerary_Variable v
  | Statement_Scope sc => itinerary_Scope sc
  | Statement_Expression e => itinerary_Expression e
  | Statement_If i => itinerary_If i
  | ReturnNode mReturnValue =>
      Some (Abstract_Statement s) :: list_slot itinerary_Expression mReturnValue
  | WhileNode mCondition mScope =>
      Some (Abstract_Statement s) ::
      hole_or itinerary_Expression mCondition ++ hole_or itinerary_Scope mScope
  | ForNode mInitialVariable mInitialExpression mCondition mIterator mScope =>
      Some (Abstract_Statement s) ::
      list_slot itinerary_Variable mInitialVariable
      ++ list_slot itinerary_Expression mInitialExpression
      ++ list_slot itinerary_Expression mCondition
      ++ list_slot itinerary_Expression mIterator
      ++ hole_or itinerary_Scope mScope
  | StatementNode_base | LabelNode _ | GotoNode _ | BreakNode | ContinueNode =>
      [Some (Abstract_Statement s)]
  end

with itinerary_Scope (sc : ScopeNode) : list (pointer AbstractNode) :=
  Some (Abstract_Scope sc) ::
  match sc with
  | Build_ScopeNode mStatements => hole_or_each itinerary_Statement mStatements
  end

with itinerary_If (i : IfNode) : list (pointer AbstractNode) :=
  Some (Abstract_If i) ::
  match i with
  | Build_IfNode mCondition mScope mElse =>
      list_slot itinerary_Expression mCondition ++ hole_or itinerary_Scope mScope
      ++ list_slot itinerary_If mElse
  end.

(** Modelled from the spec: the listing with its holes, of any node. *)
Fixpoint itinerary (n : AbstractNode) : list (pointer AbstractNode) :=
  match n with
  | AbstractNode_base => [Some n]
  | BlockNode mGlobals => Some n :: hole_or_each itinerary mGlobals
  | ClassNode _ mMembers => Some n :: hole_or_each itinerary mMembers
  | Abstract_Statement s => itinerary_Statement s
  | Abstract_Type t => itinerary_Type t
  | Abstract_Parameter p => itinerary_Parameter p
  | FunctionNode _ mParameters mReturnType mScope =>
      Some n :: hole_or_each itinerary_Parameter mParameters
        ++ list_slot itinerary_Type mReturnType
        ++ hole_or itinerary_Scope mScope
  end.

(** ** The traversal protocol *)

(** Modelled from the spec: what a callback answers.  The spec has the
    visitor "able to suppress or redirect recursion": with [Descend] the
    traversal goes on into the children of the node, with [Suppress] it
    leaves them out.  A callback that recurses itself, through nested
    [Walk] calls with [visit] unset, does so inside its own step and
    answers [Suppress]. *)
Inductive Recursion : Type :=
| Descend
| Suppress.

(** Modelled from the spec: the header only forward-declares [class
    Visitor].  The spec gives a visitor one callback per node class, fired
    with the node; here the callbacks are one function and the class is the
    constructor of the node it receives.  A callback works on the visitor's
    own state [S] and answers whether the traversal is to recurse.  The
    argument is a raw pointer, so that "visiting a null position" can be
    told from visiting a node. *)
Definition Visitor (S : Type) : Type := pointer AbstractNode -> S -> S * Recursion.

(** A visitor that lets every traversal recurse, whatever its state. *)
Definition never_suppresses {S : Type} (visitor : Visitor S) : Prop :=
  forall (node : AbstractNode) (s : S), snd (visitor (Some node) s) = Descend.

(** Modelled from the spec: how a pass over a tree ends.  It ran to its
    end, or it failed fast at a hole.  Either way the state reached is
    reported. *)
Inductive Outcome (S : Type) : Type :=
| Completed (s : S)
| Aborted (s : S).

Definition state_of {S : Type} (o : Outcome S) : S :=
  match o with Completed s => s | Aborted s => s end.


Definition Outcome_map {S S' : Type} (f : S -> S') (o : Outcome S) : Outcome S' :=
  match o with Completed s => Completed (f s) | Aborted s => Aborted (f s) end.

(** A step of a pass: a state transformer that may abort. *)
Definition Pass (S : Type) : Type := S -> Outcome S.

Definition skip {S : Type} : Pass S := fun s => Completed s.

Definition failFast {S : Type} : Pass S := fun s => Aborted s.

Definition andThen {S : Type} (first second : Pass S) : Pass S :=
  fun s =>
    match first s with
    | Completed s' => second s'
    | Aborted s' => Aborted s'
    end.

Declare Scope pass_scope.
Delimit Scope pass_scope with pass.
Infix ";;" := andThen (at level 61, right associativity) : pass_scope.
Local Open Scope pass_scope.

Section Traversal.

Variable S : Type.
Variable visitor : Visitor S.

(** Modelled from the spec: when [visit] is set the callback for [this]
    fires first, and its answer decides whether the children are walked;
    when [visit] is unset no callback fires for [this] and the children
    are walked. *)
Definition visiting (visit : bool) (this : AbstractNode) (below : Pass S) : Pass S :=
  fun s =>
    if visit then
      match visitor (Some this) s with
      | (s', Descend) => below s'
      | (s', Suppress) => Completed s'
      end
    else below s.

Section Slots.

Variable T : Type.
Variable Walk : T -> Pass S.

(** Modelled from the spec: an optional slot is walked when
    populated and skipped silently when absent. *)
Definition walk_optional (slot : unique_ptr T) : Pass S :=
  match slot with Some child => Walk child | None => skip end.

(** Modelled from the spec: a mandatory slot is walked when
    populated; a hole aborts the pass. *)
Definition walk_mandatory (slot : unique_ptr T) : Pass S :=
  match slot with Some child => Walk child | None => failFast end.

(** Modelled from the spec: the entries of an ordered list are walked
    front to back; none of them may be a hole. *)
Fixpoint walk_each (slots : unique_vector T) : Pass S :=
  match slots with
  | [] => skip
  | slot :: rest => walk_mandatory slot ;; walk_each rest
  end.

End Slots.

(** Modelled from the spec: the header declares [void Walk(Visitor*
    visitor, bool visit = true)] in every class and defines it nowhere.
    By the spec, [Walk] fires the visitor's callback for the node itself
    when [visit] is set, before its children; unless the visitor
    suppresses it, it then recurses into the owned children in the
    declaration order of the fields, each child with the default [visit =
    true]; an absent optional child is skipped without a callback; an
    unpopulated mandatory child makes the pass fail fast.
    [TypeNode::Walk]: a Type owns no child. *)
Definition Walk_Type (this : TypeNode) (visit : bool) : Pass S :=
  visiting visit (Abstract_Type this) skip.

(** Modelled from the spec: [ExpressionNode::Walk] and the overrides of
    the classes derived from [ExpressionNode]. *)
Fixpoint Walk_Expression (this : ExpressionNode) (visit : bool) {struct this} : Pass S :=
  let walk := fun child => Walk_Expression child true in
  visiting visit (Abstract_Expression this)
    match this with
    | ExpressionNode_base => skip
    | ValueNode _ => skip
    | BinaryOperatorNode _ mLeft mRight =>
        walk_mandatory walk mLeft ;; walk_mandatory walk mRight
    | UnaryOperatorNode _ mRight => walk_mandatory walk mRight
    | PostExpressionNode mLeft => walk_mandatory walk mLeft
    | MemberAccessNode mLeft _ _ => walk_mandatory walk mLeft
    | CallNode mLeft mArguments =>
        walk_mandatory walk mLeft ;; walk_each walk mArguments
    | CastNode mLeft mType =>
        walk_mandatory walk mLeft ;; walk_mandatory (fun t => Walk_Type t true) mType
    | IndexNode mLeft mIndex =>
        walk_mandatory walk mLeft ;; walk_mandatory walk mIndex
    end.

(** Modelled from the spec: [VariableNode::Walk]. *)
Definition Walk_Variable (this : VariableNode) (visit : bool) : Pass S :=
  visiting visit (Abstract_Variable this)
    match this with
    | Build_VariableNode _ mType mInitialValue =>
        walk_mandatory (fun t => Walk_Type t true) mType ;;
        walk_optional (fun e => Walk_Expression e true) mInitialValue
    end.

(** Modelled from the spec: [ParameterNode::Walk]. *)
Definition Walk_Parameter (this : ParameterNode) (visit : bool) : Pass S :=
  visiting visit (Abstract_Parameter this)
    match this with
    | Build_ParameterNode _ mType => walk_mandatory (fun t => Walk_Type t true) mType
    end.

(** Modelled from the spec: [StatementNode::Walk] and the overrides of
    the classes derived from [StatementNode], among them
    [ScopeNode::Walk] and [IfNode::Walk]. *)
Fixpoint Walk_Statement (this : StatementNode) (visit : bool) {struct this} : Pass S :=
  match this with
  | Statement_Variable v => Walk_Variable v visit
  | Statement_Scope sc => Walk_Scope sc visit
  | Statement_Expression e => Walk_Expression e visit
  | Statement_If i => Walk_If i visit
  | ReturnNode mReturnValue =>
      visiting visit (Abstract_Statement this)
        (walk_optional (fun e => Walk_Expression e true) mReturnValue)
  | WhileNode mCondition mScope =>
      visiting visit (Abstract_Statement this)
        (walk_mandatory (fun e => Walk_Expression e true) mCondition ;;
         walk_mandatory (fun sc => Walk_Scope sc true) mScope)
  | ForNode mInitialVariable mInitialExpression mCondition mIterator mScope =>
      visiting visit (Abstract_Statement this)
        (walk_optional (fun v => Walk_Variable v true) mInitialVariable ;;
         walk_optional (fun e => Walk_Expression e true) mInitialExpression ;;
         walk_optional (fun e => Walk_Expression e true) mCondition ;;
         walk_optional (fun e => Walk_Expression e true) mIterator ;;
         walk_mandatory (fun sc => Walk_Scope sc true) mScope)
  | StatementNode_base | LabelNode _ | GotoNode _ | BreakNode | ContinueNode =>
      visiting visit (Abstract_Statement this) skip
  end

with Walk_Scope (this : ScopeNode) (visit : bool) {struct this} : Pass S :=
  visiting visit (Abstract_Scope this)
    match this with
    | Build_ScopeNode mStatements =>
        walk_each (fun st => Walk_Statement st true) mStatements
    end

with Walk_If (this : IfNode) (visit : bool) {struct this} : Pass S :=
  visiting visit (Abstract_If this)
    match this with
    | Build_IfNode mCondition mScope mElse =>
        walk_optional (fun e => Walk_Expression e true) mCondition ;;
        walk_mandatory (fun sc => Walk_Scope sc true) mScope ;;
        walk_optional (fun i => Walk_If i true) mElse
    end.

(** Modelled from the spec: [AbstractNode::Walk] and the overrides
    [BlockNode::Walk], [ClassNode::Walk] and [FunctionNode::Walk].  A
    virtual call [this->Walk(visitor, visit)] through an [AbstractNode*]
    runs the override of the dynamic class. *)
Fixpoint Walk (this : AbstractNode) (visit : bool) {struct this} : Pass S :=
  match this with
  | AbstractNode_base => visiting visit this skip
  | BlockNode mGlobals =>
      visiting visit this (walk_each (fun g => Walk g true) mGlobals)
  | ClassNode _ mMembers =>
      visiting visit this (walk_each (fun m => Walk m true) mMembers)
  | Abstract_Statement s => Walk_Statement s visit
  | Abstract_Type t => Walk_Type t visit
  | Abstract_Parameter p => Walk_Parameter p visit
  | FunctionNode _ mParameters mReturnType mScope =>
      visiting visit this
        (walk_each (fun p => Walk_Parameter p true) mParameters ;;
         walk_optional (fun t => Walk_Type t true) mReturnType ;;
         walk_mandatory (fun sc => Walk_Scope sc true) mScope)
  end.

(** The slots of a node walked in order, each populated one through the
    virtual call. *)
Fixpoint walk_slots (slots : list Slot) : Pass S :=
  match slots with
  | [] => skip
  | slot :: rest =>
      match owned_by slot with
      | Some child => Walk child true ;; walk_slots rest
      | None => if is_required slot then failFast else walk_slots rest
      end
  end.

(** The callbacks of a log fired in order, their answers dropped. *)
Definition replay (log : list (pointer AbstractNode)) (s : S) : S :=
  fold_left (fun s' node => fst (visitor node s')) log s.

(** The callbacks of a listing with holes fired in order up to the first
    hole, their answers dropped: the pass is aborted there when there is
    one. *)
Fixpoint run_itinerary (l : list (pointer AbstractNode)) : Pass S :=
  match l with
  | [] => skip
  | Some node :: rest => fun s => run_itinerary rest (fst (visitor (Some node) s))
  | None :: _ => failFast
  end.

End Traversal.

(** ** Recording visitors *)

(** A visitor that appends every position it is asked to visit to its log
    and lets the traversal recurse. *)
Definition recorder : Visitor (list (pointer AbstractNode)) :=
  fun node log => (log ++ [node], Descend).

(** The recorded visitation sequence of one traversal. *)
Definition trace (root : AbstractNode) (visit : bool) : Outcome (list (pointer AbstractNode)) :=
  Walk recorder root visit [].

(** Any visitor, with a log kept next to its own state. *)
Definition logging {S : Type} (visitor : Visitor S)
  : Visitor (S * list (pointer AbstractNode)) :=
  fun node sl =>
    let (s', answer) := visitor node (fst sl) in
    ((s', snd sl ++ [node]), answer).

(** The visitation sequence of one traversal by any visitor. *)
Definition logged {S : Type} (visitor : Visitor S) (root : AbstractNode) (visit : bool)
    (s : S) : Outcome (list (pointer AbstractNode)) :=
  Outcome_map snd (Walk (logging visitor) root visit (s, [])).

(** A visitor that suppresses every recursion. *)
Definition suppressor : Visitor unit := fun _ s => (s, Suppress).

(** ** The traversal of a tree held in memory *)

(** What a pass can read and write: the tree as the driver holds it, next
    to the visitor's external state. *)
Record World (S : Type) : Type :=
  { program : AbstractNode; external : S }.

(** Modelled from the spec: a visitor at work on the tree in memory.  A
    callback is handed the place of the node, its position from the root,
    and may read and write the whole world, the tree included; it answers
    whether the traversal is to recurse. *)
Definition InPlaceVisitor (S : Type) : Type :=
  pointer Position -> World S -> World S * Recursion.

(** How a bounded run ends: with an outcome, or out of fuel ([None]). *)
Definition Run (W : Type) : Type := option (Outcome W).

Section InPlace.

Variable S : Type.
Variable visitor : InPlaceVisitor S.

(** Modelled from the spec: the slots of the node at [this] walked in
    order.  The [index]-th populated slot is the child at position [this
    ++ [index]]; it is walked there, in the world as it is by then.  An
    absent optional slot is skipped, a hole aborts the pass. *)
Fixpoint walk_slots_at (walk : Position -> World S -> Run (World S)) (this : Position)
    (index : nat) (slots : list Slot) (w : World S) : Run (World S) :=
  match slots with
  | [] => Some (Completed w)
  | slot :: rest =>
      match owned_by slot with
      | Some _ =>
          match walk (this ++ [index]) w with
          | Some (Completed w') => walk_slots_at walk this (Datatypes.S index) rest w'
          | ended => ended
          end
      | None =>
          if is_required slot then Some (Aborted w)
          else walk_slots_at walk this index rest w
      end
  end.

(** Modelled from the spec: the children of the node at [this], read from
    the world.  A position at which the tree has no node is a dangling
    pointer: the pass is aborted. *)
Definition walk_children_at (walk : Position -> World S -> Run (World S))
    (this : Position) (w : World S) : Run (World S) :=
  match subnode_at (program w) this with
  | Some node => walk_slots_at walk this 0 (slots node) w
  | None => Some (Aborted w)
  end.

(** Modelled from the spec: [Walk] on the node at position [this] of the
    tree in the world, in at most [fuel] nested calls.  The node is read
    from the world, the callback fires as in [visiting], and the children
    are read from the world the callback has left. *)
Fixpoint Walk_within (fuel : nat) (this : Position) (visit : bool) (w : World S)
  : Run (World S) :=
  match fuel with
  | 0 => None
  | Datatypes.S fuel' =>
      let below := walk_children_at (fun child => Walk_within fuel' child true) this in
      match subnode_at (program w) this with
      | None => Some (Aborted w)
      | Some _ =>
          if visit then
            match visitor (Some this) w with
            | (w', Descend) => below w'
            | (w', Suppress) => Some (Completed w')
            end
          else below w
      end
  end.

(** Modelled from the spec: [Walk] on the node at [this].  No node of the
    tree lies deeper than the tree has nodes, so this fuel is enough as
    long as no callback restructures the tree. *)
Definition Walk_at (this : Position) (visit : bool) (w : World S) : Run (World S) :=
  Walk_within (length (preorder (program w))) this visit w.

End InPlace.

(** A visitor whose callbacks leave the tree as it is. *)
Definition preserves_program {S : Type} (visitor : InPlaceVisitor S) : Prop :=
  forall (this : Position) (w : World S),
    program (fst (visitor (Some this) w)) = program w.

(** A visitor whose callbacks leave [view] of its external state as it
    is. *)
Definition keeps {S A : Type} (view : S -> A) (visitor : InPlaceVisitor S) : Prop :=
  forall (this : Position) (w : World S),
    view (external (fst (visitor (Some this) w))) = view (external w).

(** A visitor whose answers depend on the tree and on [view] of its
    external state alone. *)
Definition decides_by {S A : Type} (view : S -> A) (visitor : InPlaceVisitor S) : Prop :=
  forall (this : Position) (w1 w2 : World S),
    program w1 = program w2 ->
    view (external w1) = view (external w2) ->
    snd (visitor (Some this) w1) = snd (visitor (Some this) w2).

(** A world with a log of the positions visited next to the external
    state. *)
Definition with_log {S : Type} (w : World S) (log : list (pointer Position))
  : World (S * list (pointer Position)) :=
  {| program := program w; external := (external w, log) |}.

Definition without_log {S : Type} (w : World (S * list (pointer Position))) : World S :=
  {| program := program w; external := fst (external w) |}.

Definition log_of {S : Type} (w : World (S * list (pointer Position)))
  : list (pointer Position) :=
  snd (external w).

(** Any visitor on the tree in memory, with a log kept next to its
    external state. *)
Definition logging_at {S : Type} (visitor : InPlaceVisitor S)
  : InPlaceVisitor (S * list (pointer Position)) :=
  fun this w =>
    let (w', answer) := visitor this (without_log w) in
    (with_log w' (log_of w ++ [this]), answer).

(** A visitor of tree values at work on the tree in memory: it is handed
    the node it finds at the position and writes its own state only. *)
Definition reading {S : Type} (visitor : Visitor S) : InPlaceVisitor S :=
  fun this w =>
    let node :=
      match this with
      | Some pos => subnode_at (program w) pos
      | None => None
      end in
    let (s', answer) := visitor node (external w) in
    ({| program := program w; external := s' |}, answer).
(** ** Induction over the node classes *)

(** A property of the pointee of a slot, when there is one. *)
Definition on_slot {T : Type} (P : T -> Prop) (slot : unique_ptr T) : Prop :=
  match slot with Some child => P child | None => True end.

Definition on_each {T : Type} (P : T -> Prop) (slots : unique_vector T) : Prop :=
  Forall (on_slot P) slots.

Unset Implicit Arguments.

Section Induction.

Definition slot_ind {T : Type} (P : T -> Prop) (rec : forall t, P t)
    (slot : unique_ptr T) : on_slot P slot :=
  match slot with Some child => rec child | None => I end.

Definition each_ind {T : Type} (P : T -> Prop) (rec : forall t, P t)
  : forall slots : unique_vector T, on_each P slots :=
  fix go (slots : unique_vector T) : on_each P slots :=
    match slots with
    | [] => Forall_nil _
    | slot :: rest => Forall_cons slot (slot_ind P rec slot) (go rest)
    end.

Section Expressions.

Variable P : ExpressionNode -> Prop.
Hypothesis H_base : P ExpressionNode_base.
Hypothesis H_Value : forall t, P (ValueNode t).
Hypothesis H_Binary : forall op l r,
    on_slot P l -> on_slot P r -> P (BinaryOperatorNode op l r).
Hypothesis H_Unary : forall op r, on_slot P r -> P (UnaryOperatorNode op r).
Hypothesis H_Post : forall l, on_slot P l -> P (PostExpressionNode l).
Hypothesis H_Member : forall l op name, on_slot P l -> P (MemberAccessNode l op name).
Hypothesis H_Call : forall l args, on_slot P l -> on_each P args -> P (CallNode l args).
Hypothesis H_Cast : forall l ty, on_slot P l -> P (CastNode l ty).
Hypothesis H_Index : forall l i, on_slot P l -> on_slot P i -> P (IndexNode l i).

Fixpoint ExpressionNode_ind (e : ExpressionNode) : P e :=
  match e with
  | ExpressionNode_base => H_base
  | ValueNode t => H_Value t
  | BinaryOperatorNode op l r =>
      H_Binary op l r (slot_ind P ExpressionNode_ind l) (slot_ind P ExpressionNode_ind r)
  | UnaryOperatorNode op r => H_Unary op r (slot_ind P ExpressionNode_ind r)
  | PostExpressionNode l => H_Post l (slot_ind P ExpressionNode_ind l)
  | MemberAccessNode l op name => H_Member l op name (slot_ind P ExpressionNode_ind l)
  | CallNode l args =>
      H_Call l args (slot_ind P ExpressionNode_ind l) (each_ind P ExpressionNode_ind args)
  | CastNode l ty => H_Cast l ty (slot_ind P ExpressionNode_ind l)
  | IndexNode l i =>
      H_Index l i (slot_ind P ExpressionNode_ind l) (slot_ind P ExpressionNode_ind i)
  end.

End Expressions.

Section Statements.

Variable P : StatementNode -> Prop.
Variable PScope : ScopeNode -> Prop.
Variable PIf : IfNode -> Prop.
Hypothesis H_base : P StatementNode_base.
Hypothesis H_Variable : forall v, P (Statement_Variable v).
Hypothesis H_Scope : forall sc, PScope sc -> P (Statement_Scope sc).
Hypothesis H_Label : forall name, P (LabelNode name).
Hypothesis H_Goto : forall name, P (GotoNode name).
Hypothesis H_Return : forall value, P (ReturnNode value).
Hypothesis H_Break : P BreakNode.
Hypothesis H_Continue : P ContinueNode.
Hypothesis H_Expression : forall e, P (Statement_Expression e).
Hypothesis H_If : forall i, PIf i -> P (Statement_If i).
Hypothesis H_While : forall c sc, on_slot PScope sc -> P (WhileNode c sc).
Hypothesis H_For : forall iv ie c it sc, on_slot PScope sc -> P (ForNode iv ie c it sc).
Hypothesis H_ScopeNode : forall sts, on_each P sts -> PScope (Build_ScopeNode sts).
Hypothesis H_IfNode : forall c sc e,
    on_slot PScope sc -> on_slot PIf e -> PIf (Build_IfNode c sc e).

Fixpoint StatementNode_ind (s : StatementNode) : P s :=
  match s with
  | StatementNode_base => H_base
  | Statement_Variable v => H_Variable v
  | Statement_Scope sc => H_Scope sc (ScopeNode_ind sc)
  | LabelNode name => H_Label name
  | GotoNode name => H_Goto name
  | ReturnNode value => H_Return value
  | BreakNode => H_Break
  | ContinueNode => H_Continue
  | Statement_Expression e => H_Expression e
  | Statement_If i => H_If i (IfNode_ind i)
  | WhileNode c sc => H_While c sc (slot_ind PScope ScopeNode_ind sc)
  | ForNode iv ie c it sc => H_For iv ie c it sc (slot_ind PScope ScopeNode_ind sc)
  end

with ScopeNode_ind (sc : ScopeNode) : PScope sc :=
  match sc with
  | Build_ScopeNode sts => H_ScopeNode sts (each_ind P StatementNode_ind sts)
  end

with IfNode_ind (i : IfNode) : PIf i :=
  match i with
  | Build_IfNode c sc e =>
      H_IfNode c sc e (slot_ind PScope ScopeNode_ind sc) (slot_ind PIf IfNode_ind e)
  end.

End Statements.

Section Nodes.

Variable P : AbstractNode -> Prop.
Hypothesis H_base : P AbstractNode_base.
Hypothesis H_Block : forall globals, on_each P globals -> P (BlockNode globals).
Hypothesis H_Class : forall name members, on_each P members -> P (ClassNode name members).
Hypothesis H_Statement : forall s, P (Abstract_Statement s).
Hypothesis H_Type : forall t, P (Abstract_Type t).
Hypothesis H_Parameter : forall p, P (Abstract_Parameter p).
Hypothesis H_Function : forall name params ret sc, P (FunctionNode name params ret sc).

Fixpoint AbstractNode_ind (n : AbstractNode) : P n :=
  match n with
  | AbstractNode_base => H_base
  | BlockNode globals => H_Block globals (each_ind P AbstractNode_ind globals)
  | ClassNode name members => H_Class name members (each_ind P AbstractNode_ind members)
  | Abstract_Statement s => H_Statement s
  | Abstract_Type t => H_Type t
  | Abstract_Parameter p => H_Parameter p
  | FunctionNode name params ret sc => H_Function name params ret sc
  end.

End Nodes.

End Induction.

Set Implicit Arguments.


(** ** Describing what a pass does *)

(** The listing a [Walk] call is to produce: with [visit] unset the node
    itself, the head of its pre-order listing, is left out. *)
Definition visited {A : Type} (visit : bool) (listing : list A) : list A :=
  if visit then listing else tl listing.

Section Behaviour.

Variable S : Type.
Variable visitor : Visitor S.

(** [Visits w l]: from every state the pass [w] fires the callbacks of the
    listing [l] in order as far as its first hole, and is aborted there
    when there is one. *)
Definition Visits (w : Pass S) (l : list (pointer AbstractNode)) : Prop :=
  forall s : S, w s = run_itinerary visitor l s.


End Behaviour.

(** [Lists l nodes ok]: the listing with holes [l] names [nodes], and is
    without hole exactly when [ok] holds. *)
Definition Lists (l : list (pointer AbstractNode)) (nodes : list AbstractNode)
    (ok : bool) : Prop :=
  nodes_of l = nodes /\ no_hole l = ok.

Section Simulation.

Variables S1 S2 : Type.
Variable R : S1 -> S2 -> Prop.

(** Two outcomes of the same kind, in related states. *)
Definition Outcome_rel (o1 : Outcome S1) (o2 : Outcome S2) : Prop :=
  match o1, o2 with
  | Completed a, Completed b => R a b
  | Aborted a, Aborted b => R a b
  | _, _ => False
  end.

(** Two passes that take related states to related outcomes. *)
Definition Pass_rel (w1 : Pass S1) (w2 : Pass S2) : Prop :=
  forall a b, R a b -> Outcome_rel (w1 a) (w2 b).

(** Two bounded runs that end alike. *)
Definition Run_rel (r1 : Run S1) (r2 : Run S2) : Prop :=
  match r1, r2 with
  | Some o1, Some o2 => Outcome_rel o1 o2
  | None, None => True
  | _, _ => False
  end.

End Simulation.

(** A bounded run that, if it ends, ends in a state where [Inv] holds. *)
Definition Run_keeps {W : Type} (Inv : W -> Prop) (r : Run W) : Prop :=
  match r with Some o => Inv (state_of o) | None => True end.

(** A bounded run that ends, with the tree [root] in the world. *)
Definition Ends_with_tree {S : Type} (root : AbstractNode) (r : Run (World S)) : Prop :=
  exists o : Outcome (World S), r = Some o /\ program (state_of o) = root.

(** A world from a tree and an external state. *)
Definition world {S : Type} (root : AbstractNode) (s : S) : World S :=
  {| program := root; external := s |}.

(** ** Positions of a tree *)

(** A list with the index of each element. *)
Definition indexed {A : Type} (l : list A) : list (nat * A) :=
  combine (seq 0 (length l)) l.

(** The positions of the nodes at depth below [fuel], each parent before
    its children and the children in order. *)
Fixpoint positions_upto (fuel : nat) (root : AbstractNode) : list Position :=
  match fuel with
  | 0 => []
  | S fuel' =>
      [] :: flat_map (fun ic => map (cons (fst ic)) (positions_upto fuel' (snd ic)))
              (indexed (children root))
  end.

(** All positions of a tree: no node lies deeper than the tree has nodes. *)
Definition positions (root : AbstractNode) : list Position :=
  positions_upto (length (preorder root)) root.

(** ** The else branch of an [IfNode] *)

(** The object behind [mElse], seen through a [StatementNode*]. *)
Definition If_else_statement (i : IfNode) : pointer StatementNode :=
  option_map Statement_If (If_mElse i).

(** Modelled from the spec: the builder is not among the sources.  By the
    spec a trailing plain [else { ... }] is an [IfNode] whose condition
    slot is absent; its body is in [mScope]. *)
Definition plain_else (body : ScopeNode) : IfNode :=
  Build_IfNode nullptr (Some body) nullptr.

(** ** Sample trees *)

Module Samples.

Definition token (text : string) : Token :=
  {| lexeme := text; location := 0%N; kind := 0%N |}.

Definition Integer : TypeNode := Build_TypeNode (token "Integer") 0%N.

Definition value (text : string) : unique_ptr ExpressionNode :=
  Some (ValueNode (token text)).

(** [function f(x : Integer) : Integer { return x + 1; }] in a block. *)
Definition return_sum : StatementNode :=
  ReturnNode (Some (BinaryOperatorNode (token "+") (value "x") (value "1"))).

Definition f : AbstractNode :=
  FunctionNode (token "f")
    [Some (Build_ParameterNode (token "x") (Some Integer))]
    (Some Integer)
    (Some (Build_ScopeNode [Some return_sum])).

Definition program_f : AbstractNode := BlockNode [Some f].

(** [f] without its body: a hole in the mandatory [mScope]. *)
Definition f_without_body : AbstractNode :=
  FunctionNode (token "f")
    [Some (Build_ParameterNode (token "x") (Some Integer))]
    (Some Integer)
    nullptr.

(** [a.b(c)[d]]. *)
Definition a_b_c_d : ExpressionNode :=
  IndexNode
    (Some (CallNode
             (Some (MemberAccessNode (value "a") (token ".") (token "b")))
             [value "c"]))
    (value "d").

Definition empty_scope : ScopeNode := Build_ScopeNode [].

(** [if (a) { } else { }]. *)
Definition if_else : IfNode :=
  Build_IfNode (value "a") (Some empty_scope) (Some (plain_else empty_scope)).

(** A [ForNode] with both initializer slots populated. *)
Definition i_variable : VariableNode :=
  Build_VariableNode (token "i") (Some Integer) (value "0").

Definition for_both : StatementNode :=
  ForNode (Some i_variable) (value "j") nullptr nullptr (Some empty_scope).

(** [while (a) { break; }] with the condition missing. *)
Definition while_without_condition : StatementNode :=
  WhileNode nullptr (Some (Build_ScopeNode [Some BreakNode])).

(** A visitor on the tree in memory that counts its callbacks in the
    external state. *)
Definition counter : InPlaceVisitor nat :=
  fun _ w => ({| program := program w; external := S (external w) |}, Descend).

(** A visitor on the tree in memory that counts its callbacks and
    suppresses the recursion from the second callback on. *)
Definition once : InPlaceVisitor nat :=
  fun _ w =>
    ({| program := program w; external := S (external w) |},
     match external w with 0 => Descend | _ => Suppress end).

End Samples.

(** * Properties *)

(** ** Properties of [unique_vector] *)

Lemma holds_no_null_app {T : Type} (v w : unique_vector T) :
  unique_vector.holds_no_null (v ++ w)
  = unique_vector.holds_no_null v && unique_vector.holds_no_null w.
Proof. apply forallb_app. Qed.

Lemma push_back_keeps_no_null {T : Type} (v : unique_vector T) (p : unique_ptr T) :
  unique_vector.holds_no_null (fst (unique_vector.push_back v p))
  = unique_vector.holds_no_null v.
Proof.
  destruct p as [x|]; simpl; [|reflexivity].
  rewrite holds_no_null_app. simpl. now rewrite !andb_true_r.
Qed.

Lemma push_all_keeps_no_null {T : Type} (ptrs : list (unique_ptr T)) :
  forall v : unique_vector T,
    unique_vector.holds_no_null (unique_vector.push_all v ptrs)
    = unique_vector.holds_no_null v.
Proof.
  induction ptrs as [|p ptrs IH]; intro v; [reflexivity|].
  unfold unique_vector.push_all in *. simpl.
  rewrite IH. apply push_back_keeps_no_null.
Qed.

(** C2. Pushing a null pointer is rejected: whatever the container holds,
    it comes back unchanged (same contents, same length) with result
    [false].  Hence [push_back] never adds a null entry: any push leaves
    "holds no null" as it was, and a container filled from empty by
    [push_back] alone holds only non-null entries. *)
Theorem push_back_null_rejected :
  forall (T : Type) (v : unique_vector T),
    unique_vector.push_back v nullptr = (v, false)
    /\ length (fst (unique_vector.push_back v nullptr)) = length v
    /\ (forall p : unique_ptr T,
          unique_vector.holds_no_null (fst (unique_vector.push_back v p))
          = unique_vector.holds_no_null v)
    /\ (forall ptrs : list (unique_ptr T),
          unique_vector.holds_no_null (unique_vector.push_all [] ptrs) = true).
Proof.
  intros T v. repeat split.
  - intro p. apply push_back_keeps_no_null.
  - intro ptrs. now rewrite push_all_keeps_no_null.
Qed.

Example push_back_twice :
  unique_vector.push_all [] [Some 1; nullptr; Some 2; nullptr] = [Some 1; Some 2].
Proof. reflexivity. Qed.

Example push_back_null_example :
  unique_vector.push_back [Some 1; Some 2] nullptr = ([Some 1; Some 2], false).
Proof. reflexivity. Qed.

(** C10. Pushing a non-null pointer returns [true], makes the container
    exactly one longer, puts the new element last, and keeps every earlier
    element at its index. *)
Theorem push_back_present_appends :
  forall (T : Type) (v : unique_vector T) (x : T),
    let r := unique_vector.push_back v (Some x) in
    r = (v ++ [Some x], true)
    /\ snd r = true
    /\ length (fst r) = S (length v)
    /\ nth_error (fst r) (length v) = Some (Some x)
    /\ last (fst r) nullptr = Some x
    /\ firstn (length v) (fst r) = v.
Proof.
  intros T v x. simpl. repeat split.
  - rewrite length_app. simpl. lia.
  - rewrite nth_error_app2 by lia. now rewrite Nat.sub_diag.
  - apply last_last.
  - rewrite firstn_app, Nat.sub_diag, firstn_all. simpl. apply app_nil_r.
Qed.


(** ** Slots, one by one *)

Lemma on_slot_impl {T : Type} (P Q : T -> Prop) (slot : unique_ptr T) :
  (forall t, P t -> Q t) -> on_slot P slot -> on_slot Q slot.
Proof. destruct slot; simpl; auto. Qed.

Lemma on_each_impl {T : Type} (P Q : T -> Prop) (slots : unique_vector T) :
  (forall t, P t -> Q t) -> on_each P slots -> on_each Q slots.
Proof.
  intros HPQ H. induction H; constructor; eauto using on_slot_impl.
Qed.

Lemma on_slot_all {T : Type} (P : T -> Prop) (slot : unique_ptr T) :
  (forall t, P t) -> on_slot P slot.
Proof. destruct slot; simpl; auto. Qed.

Lemma on_each_all {T : Type} (P : T -> Prop) (slots : unique_vector T) :
  (forall t, P t) -> on_each P slots.
Proof. intro H. induction slots; constructor; auto using on_slot_all. Qed.

(** The slots of a node, from what is known of the pointees: an induction
    hypothesis, or a lemma about their class among the hypotheses. *)
Ltac slots_from_context :=
  first
    [ eapply on_slot_impl; [|eassumption]; cbv beta;
      let t := fresh "t" in let H := fresh "H" in intros t H; exact (H true)
    | eapply on_each_impl; [|eassumption]; cbv beta;
      let t := fresh "t" in let H := fresh "H" in intros t H; exact (H true)
    | apply on_slot_all; cbv beta;
      let t := fresh "t" in intro t;
      match goal with H : forall _ (_ : bool), _ |- _ => exact (H t true) end
    | apply on_each_all; cbv beta;
      let t := fresh "t" in intro t;
      match goal with H : forall _ (_ : bool), _ |- _ => exact (H t true) end ].

(** ** Composing passes *)

Section Visits_rules.

Variable S : Type.
Variable visitor : Visitor S.

(** The rules are those of a visitor that lets every traversal recurse. *)
Hypothesis descends : never_suppresses visitor.

Local Open Scope pass_scope.

Lemma replay_app (l1 l2 : list (pointer AbstractNode)) (s : S) :
  replay visitor (l1 ++ l2) s = replay visitor l2 (replay visitor l1 s).
Proof. apply fold_left_app. Qed.

Lemma run_itinerary_app (l1 l2 : list (pointer AbstractNode)) (s : S) :
  run_itinerary visitor (l1 ++ l2) s
  = (run_itinerary visitor l1 ;; run_itinerary visitor l2) s.
Proof.
  revert s. induction l1 as [|[node|] l1 IH]; intro s; try reflexivity.
  simpl. rewrite IH. reflexivity.
Qed.

Lemma Visits_skip : Visits visitor skip [].
Proof. intro s. reflexivity. Qed.

Lemma Visits_failFast : Visits visitor failFast [nullptr].
Proof. intro s. reflexivity. Qed.

Lemma Visits_andThen (a b : Pass S) (la lb : list (pointer AbstractNode)) :
  Visits visitor a la -> Visits visitor b lb -> Visits visitor (a ;; b) (la ++ lb).
Proof.
  intros Ha Hb s. rewrite run_itinerary_app. unfold andThen.
  rewrite Ha. destruct (run_itinerary visitor la s); [apply Hb|reflexivity].
Qed.

Lemma Visits_visiting (visit : bool) (this : AbstractNode) (below : Pass S)
    (l : list (pointer AbstractNode)) :
  Visits visitor below l ->
  Visits visitor (visiting visitor visit this below) (visited visit (Some this :: l)).
Proof.
  intros Hbelow s. unfold visiting. destruct visit; simpl; [|apply Hbelow].
  pose proof (descends this s) as Hd.
  destruct (visitor (Some this) s) as [s' answer]. simpl in *. subst answer.
  apply Hbelow.
Qed.

Section Slots.

Variable T : Type.
Variable Walk : T -> Pass S.
Variable listing : T -> list (pointer AbstractNode).

Lemma Visits_optional (slot : unique_ptr T) :
  on_slot (fun child => Visits visitor (Walk child) (listing child)) slot ->
  Visits visitor (walk_optional Walk slot) (list_slot listing slot).
Proof. destruct slot as [child|]; simpl; intro H; [exact H|apply Visits_skip]. Qed.

Lemma Visits_mandatory (slot : unique_ptr T) :
  on_slot (fun child => Visits visitor (Walk child) (listing child)) slot ->
  Visits visitor (walk_mandatory Walk slot) (hole_or listing slot).
Proof. destruct slot as [child|]; simpl; intro H; [exact H|apply Visits_failFast]. Qed.

Lemma Visits_each (slots : unique_vector T) :
  on_each (fun child => Visits visitor (Walk child) (listing child)) slots ->
  Visits visitor (walk_each Walk slots) (hole_or_each listing slots).
Proof.
  induction 1 as [|slot rest Hslot _ IH]; simpl.
  - apply Visits_skip.
  - apply Visits_andThen; [now apply Visits_mandatory|exact IH].
Qed.

End Slots.

Ltac visits :=
  apply Visits_visiting;
  repeat first
    [ apply Visits_skip
    | apply Visits_andThen
    | apply Visits_mandatory; slots_from_context
    | apply Visits_optional; slots_from_context
    | apply Visits_each; slots_from_context ].

(** *** [Walk] follows the listing with holes *)

Lemma Walk_Type_Visits (t : TypeNode) (visit : bool) :
  Visits visitor (Walk_Type visitor t visit) (visited visit (itinerary_Type t)).
Proof. apply Visits_visiting, Visits_skip. Qed.

Lemma Walk_Expression_Visits (e : ExpressionNode) :
  forall visit : bool,
    Visits visitor (Walk_Expression visitor e visit)
      (visited visit (itinerary_Expression e)).
Proof.
  pose proof Walk_Type_Visits as HT.
  induction e using ExpressionNode_ind; intro visit;
    cbn [Walk_Expression itinerary_Expression]; solve [visits].
Qed.

Lemma Walk_Variable_Visits (v : VariableNode) :
  forall visit : bool,
    Visits visitor (Walk_Variable visitor v visit) (visited visit (itinerary_Variable v)).
Proof.
  pose proof Walk_Type_Visits as HT.
  pose proof Walk_Expression_Visits as HE.
  destruct v; intro visit; cbn [Walk_Variable itinerary_Variable]; solve [visits].
Qed.

Lemma Walk_Parameter_Visits (p : ParameterNode) :
  forall visit : bool,
    Visits visitor (Walk_Parameter visitor p visit)
      (visited visit (itinerary_Parameter p)).
Proof.
  pose proof Walk_Type_Visits as HT.
  destruct p; intro visit; cbn [Walk_Parameter itinerary_Parameter]; solve [visits].
Qed.

Lemma Walk_Statement_Visits (s : StatementNode) :
  forall visit : bool,
    Visits visitor (Walk_Statement visitor s visit)
      (visited visit (itinerary_Statement s)).
Proof.
  pose proof Walk_Expression_Visits as HE.
  pose proof Walk_Variable_Visits as HV.
  induction s using StatementNode_ind with
    (PScope := fun sc => forall visit,
       Visits visitor (Walk_Scope visitor sc visit) (visited visit (itinerary_Scope sc)))
    (PIf := fun i => forall visit,
       Visits visitor (Walk_If visitor i visit) (visited visit (itinerary_If i)));
    intro visit;
    cbn [Walk_Statement Walk_Scope Walk_If itinerary_Statement itinerary_Scope
         itinerary_If];
    first [ solve [auto] | solve [visits] ].
Qed.

Lemma Walk_Scope_Visits (sc : ScopeNode) :
  forall visit : bool,
    Visits visitor (Walk_Scope visitor sc visit) (visited visit (itinerary_Scope sc)).
Proof. intro visit. apply (Walk_Statement_Visits (Statement_Scope sc)). Qed.

Lemma Walk_Visits (n : AbstractNode) :
  forall visit : bool,
    Visits visitor (Walk visitor n visit) (visited visit (itinerary n)).
Proof.
  pose proof Walk_Statement_Visits as HS.
  pose proof Walk_Type_Visits as HT.
  pose proof Walk_Parameter_Visits as HP.
  pose proof Walk_Scope_Visits as HSc.
  induction n using AbstractNode_ind; intro visit;
    cbn [Walk itinerary]; first [ solve [auto] | solve [visits] ].
Qed.

End Visits_rules.

(** ** Well-formed trees are walked to the end *)

Section Completes_rules.

Variable S : Type.
Variable visitor : Visitor S.

Local Open Scope pass_scope.




Section Slots.

Variable T : Type.
Variable Walk : T -> Pass S.
Variable ok : T -> bool.




End Slots.









End Completes_rules.

(** ** Two traversals of one tree, side by side *)

Section Simulation_rules.

Variables S1 S2 : Type.
Variable R : S1 -> S2 -> Prop.
Variable visitor1 : Visitor S1.
Variable visitor2 : Visitor S2.

(** Fired for a node in related states, the callbacks leave related states
    and give the same answer.  Nothing is asked of the callbacks at the
    null position. *)
Hypothesis callbacks_related :
  forall (node : AbstractNode) (a : S1) (b : S2),
    R a b ->
    R (fst (visitor1 (Some node) a)) (fst (visitor2 (Some node) b))
    /\ snd (visitor1 (Some node) a) = snd (visitor2 (Some node) b).

Local Open Scope pass_scope.

Lemma Pass_rel_skip : Pass_rel R skip skip.
Proof. intros a b H. exact H. Qed.

Lemma Pass_rel_failFast : Pass_rel R failFast failFast.
Proof. intros a b H. exact H. Qed.

Lemma Pass_rel_andThen (a1 b1 : Pass S1) (a2 b2 : Pass S2) :
  Pass_rel R a1 a2 -> Pass_rel R b1 b2 -> Pass_rel R (a1 ;; b1) (a2 ;; b2).
Proof.
  intros Ha Hb x y Hxy. specialize (Ha x y Hxy). unfold andThen.
  destruct (a1 x), (a2 y); simpl in *; try contradiction; auto.
Qed.

Lemma Pass_rel_visiting (visit : bool) (this : AbstractNode) (below1 : Pass S1)
    (below2 : Pass S2) :
  Pass_rel R below1 below2 ->
  Pass_rel R (visiting visitor1 visit this below1) (visiting visitor2 visit this below2).
Proof.
  intros Hbelow a b Hab. unfold visiting. destruct visit; [|now apply Hbelow].
  destruct (callbacks_related this Hab) as [Hstate Hanswer].
  destruct (visitor1 (Some this) a) as [a' answer1].
  destruct (visitor2 (Some this) b) as [b' answer2].
  simpl in *. subst answer2. destruct answer1; [now apply Hbelow|exact Hstate].
Qed.

Section Slots.

Variable T : Type.
Variable Walk1 : T -> Pass S1.
Variable Walk2 : T -> Pass S2.

Lemma Pass_rel_optional (slot : unique_ptr T) :
  on_slot (fun child => Pass_rel R (Walk1 child) (Walk2 child)) slot ->
  Pass_rel R (walk_optional Walk1 slot) (walk_optional Walk2 slot).
Proof. destruct slot; simpl; intro H; [exact H|apply Pass_rel_skip]. Qed.

Lemma Pass_rel_mandatory (slot : unique_ptr T) :
  on_slot (fun child => Pass_rel R (Walk1 child) (Walk2 child)) slot ->
  Pass_rel R (walk_mandatory Walk1 slot) (walk_mandatory Walk2 slot).
Proof. destruct slot; simpl; intro H; [exact H|apply Pass_rel_failFast]. Qed.

Lemma Pass_rel_each (slots : unique_vector T) :
  on_each (fun child => Pass_rel R (Walk1 child) (Walk2 child)) slots ->
  Pass_rel R (walk_each Walk1 slots) (walk_each Walk2 slots).
Proof.
  induction 1 as [|slot rest Hslot _ IH]; simpl.
  - apply Pass_rel_skip.
  - apply Pass_rel_andThen; [now apply Pass_rel_mandatory|exact IH].
Qed.

End Slots.

Ltac related :=
  apply Pass_rel_visiting;
  repeat first
    [ apply Pass_rel_skip
    | apply Pass_rel_andThen
    | apply Pass_rel_mandatory; slots_from_context
    | apply Pass_rel_optional; slots_from_context
    | apply Pass_rel_each; slots_from_context ].

Lemma Walk_Type_related (t : TypeNode) (visit : bool) :
  Pass_rel R (Walk_Type visitor1 t visit) (Walk_Type visitor2 t visit).
Proof. apply Pass_rel_visiting, Pass_rel_skip. Qed.

Lemma Walk_Expression_related (e : ExpressionNode) :
  forall visit : bool,
    Pass_rel R (Walk_Expression visitor1 e visit) (Walk_Expression visitor2 e visit).
Proof.
  pose proof Walk_Type_related as HT.
  induction e using ExpressionNode_ind; intro visit;
    cbn [Walk_Expression]; solve [related].
Qed.

Lemma Walk_Variable_related (v : VariableNode) :
  forall visit : bool,
    Pass_rel R (Walk_Variable visitor1 v visit) (Walk_Variable visitor2 v visit).
Proof.
  pose proof Walk_Type_related as HT.
  pose proof Walk_Expression_related as HE.
  destruct v; intro visit; cbn [Walk_Variable]; solve [related].
Qed.

Lemma Walk_Parameter_related (p : ParameterNode) :
  forall visit : bool,
    Pass_rel R (Walk_Parameter visitor1 p visit) (Walk_Parameter visitor2 p visit).
Proof.
  pose proof Walk_Type_related as HT.
  destruct p; intro visit; cbn [Walk_Parameter]; solve [related].
Qed.

Lemma Walk_Statement_related (s : StatementNode) :
  forall visit : bool,
    Pass_rel R (Walk_Statement visitor1 s visit) (Walk_Statement visitor2 s visit).
Proof.
  pose proof Walk_Expression_related as HE.
  pose proof Walk_Variable_related as HV.
  induction s using StatementNode_ind with
    (PScope := fun sc => forall visit,
       Pass_rel R (Walk_Scope visitor1 sc visit) (Walk_Scope visitor2 sc visit))
    (PIf := fun i => forall visit,
       Pass_rel R (Walk_If visitor1 i visit) (Walk_If visitor2 i visit));
    intro visit; cbn [Walk_Statement Walk_Scope Walk_If];
    first [ solve [auto] | solve [related] ].
Qed.

Lemma Walk_Scope_related (sc : ScopeNode) :
  forall visit : bool,
    Pass_rel R (Walk_Scope visitor1 sc visit) (Walk_Scope visitor2 sc visit).
Proof. intro visit. apply (Walk_Statement_related (Statement_Scope sc)). Qed.

Lemma Walk_related (n : AbstractNode) :
  forall visit : bool,
    Pass_rel R (Walk visitor1 n visit) (Walk visitor2 n visit).
Proof.
  pose proof Walk_Statement_related as HS.
  pose proof Walk_Type_related as HT.
  pose proof Walk_Parameter_related as HP.
  pose proof Walk_Scope_related as HSc.
  induction n using AbstractNode_ind; intro visit;
    cbn [Walk]; first [ solve [auto] | solve [related] ].
Qed.

End Simulation_rules.

(** ** The listing with holes, the listing and the well-formed trees *)

Lemma nodes_of_app {A : Type} (l1 l2 : list (pointer A)) :
  nodes_of (l1 ++ l2) = nodes_of l1 ++ nodes_of l2.
Proof. apply flat_map_app. Qed.

Lemma no_hole_app {A : Type} (l1 l2 : list (pointer A)) :
  no_hole (l1 ++ l2) = no_hole l1 && no_hole l2.
Proof. apply forallb_app. Qed.

Lemma Lists_nil : Lists [] [] true.
Proof. split; reflexivity. Qed.

Lemma Lists_app (l1 l2 : list (pointer AbstractNode)) (n1 n2 : list AbstractNode)
    (ok1 ok2 : bool) :
  Lists l1 n1 ok1 -> Lists l2 n2 ok2 -> Lists (l1 ++ l2) (n1 ++ n2) (ok1 && ok2).
Proof.
  intros [Hn1 Hok1] [Hn2 Hok2]. split.
  - now rewrite nodes_of_app, Hn1, Hn2.
  - now rewrite no_hole_app, Hok1, Hok2.
Qed.

Lemma Lists_node (this : AbstractNode) (l : list (pointer AbstractNode))
    (nodes : list AbstractNode) (ok : bool) :
  Lists l nodes ok -> Lists (Some this :: l) (this :: nodes) ok.
Proof. intros [Hn Hok]. split; simpl; [now rewrite <- Hn|exact Hok]. Qed.

Section Lists_slots.

Variable T : Type.
Variable holes : T -> list (pointer AbstractNode).
Variable listing : T -> list AbstractNode.
Variable ok : T -> bool.

Lemma Lists_optional (slot : unique_ptr T) :
  on_slot (fun child => Lists (holes child) (listing child) (ok child)) slot ->
  Lists (list_slot holes slot) (list_slot listing slot) (optional ok slot).
Proof. destruct slot; simpl; intro H; [exact H|apply Lists_nil]. Qed.

Lemma Lists_mandatory (slot : unique_ptr T) :
  on_slot (fun child => Lists (holes child) (listing child) (ok child)) slot ->
  Lists (hole_or holes slot) (list_slot listing slot) (mandatory ok slot).
Proof. destruct slot; simpl; intro H; [exact H|split; reflexivity]. Qed.

Lemma Lists_each (slots : unique_vector T) :
  on_each (fun child => Lists (holes child) (listing child) (ok child)) slots ->
  Lists (hole_or_each holes slots) (list_each listing slots) (each ok slots).
Proof.
  induction 1 as [|slot rest Hslot _ IH]; simpl.
  - apply Lists_nil.
  - apply Lists_app; [now apply Lists_mandatory|exact IH].
Qed.

End Lists_slots.

Ltac slots_listed :=
  first
    [ eassumption
    | apply on_slot_all; cbv beta;
      let t := fresh "t" in intro t;
      match goal with H : forall _, Lists _ _ _ |- _ => exact (H t) end
    | apply on_each_all; cbv beta;
      let t := fresh "t" in intro t;
      match goal with H : forall _, Lists _ _ _ |- _ => exact (H t) end ].

Ltac lists :=
  rewrite <- ?andb_assoc;
  apply Lists_node;
  repeat first
    [ apply Lists_nil
    | apply Lists_app
    | apply Lists_mandatory; slots_listed
    | apply Lists_optional; slots_listed
    | apply Lists_each; slots_listed ].

Lemma itinerary_Type_Lists (t : TypeNode) :
  Lists (itinerary_Type t) (preorder_Type t) (well_formed_Type t).
Proof. apply Lists_node, Lists_nil. Qed.

Lemma itinerary_Expression_Lists (e : ExpressionNode) :
  Lists (itinerary_Expression e) (preorder_Expression e) (well_formed_Expression e).
Proof.
  pose proof itinerary_Type_Lists as HT.
  induction e using ExpressionNode_ind;
    cbn [itinerary_Expression preorder_Expression well_formed_Expression];
    solve [lists].
Qed.

Lemma itinerary_Variable_Lists (v : VariableNode) :
  Lists (itinerary_Variable v) (preorder_Variable v) (well_formed_Variable v).
Proof.
  pose proof itinerary_Type_Lists as HT.
  pose proof itinerary_Expression_Lists as HE.
  destruct v; cbn [itinerary_Variable preorder_Variable well_formed_Variable];
    solve [lists].
Qed.

Lemma itinerary_Parameter_Lists (p : ParameterNode) :
  Lists (itinerary_Parameter p) (preorder_Parameter p) (well_formed_Parameter p).
Proof.
  pose proof itinerary_Type_Lists as HT.
  destruct p; cbn [itinerary_Parameter preorder_Parameter well_formed_Parameter];
    solve [lists].
Qed.

Lemma itinerary_Statement_Lists (s : StatementNode) :
  Lists (itinerary_Statement s) (preorder_Statement s) (well_formed_Statement s).
Proof.
  pose proof itinerary_Expression_Lists as HE.
  pose proof itinerary_Variable_Lists as HV.
  induction s using StatementNode_ind with
    (PScope := fun sc =>
       Lists (itinerary_Scope sc) (preorder_Scope sc) (well_formed_Scope sc))
    (PIf := fun i => Lists (itinerary_If i) (preorder_If i) (well_formed_If i));
    cbn [itinerary_Statement itinerary_Scope itinerary_If
         preorder_Statement preorder_Scope preorder_If
         well_formed_Statement well_formed_Scope well_formed_If];
    first [ solve [auto] | solve [lists] ].
Qed.

Lemma itinerary_Scope_Lists (sc : ScopeNode) :
  Lists (itinerary_Scope sc) (preorder_Scope sc) (well_formed_Scope sc).
Proof. apply (itinerary_Statement_Lists (Statement_Scope sc)). Qed.

Lemma itinerary_Lists (n : AbstractNode) :
  Lists (itinerary n) (preorder n) (well_formed n).
Proof.
  pose proof itinerary_Statement_Lists as HS.
  pose proof itinerary_Type_Lists as HT.
  pose proof itinerary_Parameter_Lists as HP.
  pose proof itinerary_Scope_Lists as HSc.
  induction n using AbstractNode_ind;
    cbn [itinerary preorder well_formed]; first [ solve [auto] | solve [lists] ].
Qed.
(** ** The pre-order listing, position by position *)

Lemma flat_map_present {T A : Type} (f : AbstractNode -> list A) (up : T -> AbstractNode)
    (slot : unique_ptr T) :
  flat_map f (present up slot) = list_slot (fun child => f (up child)) slot.
Proof. destruct slot; simpl; [apply app_nil_r|reflexivity]. Qed.

Lemma flat_map_present_each {T A : Type} (f : AbstractNode -> list A)
    (up : T -> AbstractNode) (slots : unique_vector T) :
  flat_map f (present_each up slots) = list_each (fun child => f (up child)) slots.
Proof.
  unfold present_each, list_each. induction slots as [|slot rest IH]; simpl; [reflexivity|].
  now rewrite flat_map_app, flat_map_present, IH.
Qed.

(** The listing of a node is the node, then the listings of its owned
    children, in order. *)
Lemma preorder_children (n : AbstractNode) :
  preorder n = n :: flat_map preorder (children n).
Proof.
  destruct n as [| | |s| |p|]; try reflexivity;
    try destruct s as [|v|sc| | | | | |e|i| |]; try destruct v; try destruct sc;
    try destruct e; try destruct i; try destruct p;
    cbn [preorder preorder_Statement preorder_Scope preorder_If preorder_Expression
         preorder_Variable preorder_Parameter preorder_Type
         children children_Statement children_Scope children_If children_Expression
         children_Variable children_Parameter];
    try reflexivity;
    rewrite ?flat_map_app, ?flat_map_present, ?flat_map_present_each;
    reflexivity.
Qed.

Lemma preorder_child_smaller (n child : AbstractNode) :
  In child (children n) -> length (preorder child) < length (preorder n).
Proof.
  rewrite (preorder_children n). simpl.
  induction (children n) as [|c rest IH]; simpl; [contradiction|].
  rewrite length_app. intros [->|H]; [lia|]. specialize (IH H). lia.
Qed.

Lemma NoDup_map_cons (i : nat) (ps : list Position) :
  NoDup ps -> NoDup (map (cons i) ps).
Proof.
  induction 1 as [|p ps Hp _ IH]; simpl; constructor; [|exact IH].
  intro Hin. apply in_map_iff in Hin as (q & Hq & Hin).
  injection Hq as ->. contradiction.
Qed.

Section Indexed.

Variable A : Type.

Lemma in_combine_seq (l : list A) :
  forall (k i : nat) (x : A),
    In (i, x) (combine (seq k (length l)) l)
    <-> k <= i /\ nth_error l (i - k) = Some x.
Proof.
  induction l as [|y l IH]; intros k i x; simpl.
  - split; [contradiction|]. intros [_ H]. now destruct (i - k).
  - rewrite IH. split.
    + intros [H|[Hle H]].
      * injection H as <- <-. split; [lia|]. now rewrite Nat.sub_diag.
      * split; [lia|]. replace (i - k) with (S (i - S k)) by lia. exact H.
    + intros [Hle H]. destruct (i - k) as [|j] eqn:E; simpl in H.
      * left. injection H as <-. f_equal. lia.
      * right. split; [lia|]. replace (i - S k) with j by lia. exact H.
Qed.

Lemma in_indexed (l : list A) (i : nat) (x : A) :
  In (i, x) (indexed l) <-> nth_error l i = Some x.
Proof.
  unfold indexed. rewrite in_combine_seq, Nat.sub_0_r.
  split; [now intros [_ H]|]. intro H. split; [lia|exact H].
Qed.

Lemma flat_map_combine_seq (B : Type) (g : nat * A -> list B) (h : A -> list B)
    (l : list A) :
  forall k : nat,
    (forall i x, In (i, x) (combine (seq k (length l)) l) -> g (i, x) = h x) ->
    flat_map g (combine (seq k (length l)) l) = flat_map h l.
Proof.
  induction l as [|y l IH]; intros k H; simpl; [reflexivity|].
  rewrite (H k y) by now left. f_equal. apply IH.
  intros i x Hin. apply H. now right.
Qed.

Lemma flat_map_indexed (B : Type) (g : nat * A -> list B) (h : A -> list B)
    (l : list A) :
  (forall i x, nth_error l i = Some x -> g (i, x) = h x) ->
  flat_map g (indexed l) = flat_map h l.
Proof.
  intro H. apply flat_map_combine_seq. intros i x Hin. apply H.
  now apply in_indexed.
Qed.

(** Lists of positions that start with distinct indices do not overlap. *)
Lemma NoDup_flat_map_combine_seq (ps : A -> list Position) (l : list A) :
  forall k : nat,
    (forall x, In x l -> NoDup (ps x)) ->
    NoDup (flat_map (fun ix => map (cons (fst ix)) (ps (snd ix)))
             (combine (seq k (length l)) l)).
Proof.
  induction l as [|y l IH]; intros k H; simpl; [constructor|].
  apply NoDup_app.
  - apply NoDup_map_cons. apply H. now left.
  - apply IH. intros x Hx. apply H. now right.
  - intros p Hp Hq. apply in_map_iff in Hp as (p' & <- & _).
    apply in_flat_map in Hq as ([i x] & Hin & Hq).
    apply in_map_iff in Hq as (q' & Hq & _). simpl in Hq.
    apply in_combine_seq in Hin as [Hle _]. injection Hq as -> _. lia.
Qed.

End Indexed.

Lemma map_flat_map {A B C : Type} (f : B -> C) (g : A -> list B) (l : list A) :
  map f (flat_map g l) = flat_map (fun x => map f (g x)) l.
Proof.
  induction l as [|x l IH]; simpl; [reflexivity|]. now rewrite map_app, IH.
Qed.

Lemma positions_upto_spec (fuel : nat) :
  forall root : AbstractNode,
    length (preorder root) <= fuel ->
    map (subnode_at root) (positions_upto fuel root) = map Some (preorder root)
    /\ NoDup (positions_upto fuel root)
    /\ (forall pos, In pos (positions_upto fuel root) <-> subnode_at root pos <> None).
Proof.
  induction fuel as [|fuel IH]; intros root Hfuel.
  - rewrite preorder_children in Hfuel. simpl in Hfuel. lia.
  - assert (Hchild : forall i c, nth_error (children root) i = Some c ->
                                 length (preorder c) <= fuel).
    { intros i c Hc. apply nth_error_In, preorder_child_smaller in Hc. lia. }
    cbn [positions_upto]. repeat split.
    + rewrite (preorder_children root). cbn [map subnode_at]. f_equal.
      rewrite !map_flat_map. apply flat_map_indexed.
      intros i c Hc. cbn [fst snd]. rewrite map_map.
      rewrite <- (proj1 (IH c (Hchild i c Hc))).
      apply map_ext. intro pos. cbn [subnode_at]. now rewrite Hc.
    + constructor.
      * intro Hin. apply in_flat_map in Hin as (ic & _ & Hin).
        apply in_map_iff in Hin as (q & Hq & _). discriminate.
      * apply NoDup_flat_map_combine_seq. intros c Hc.
        apply In_nth_error in Hc as [i Hc]. apply (IH c (Hchild i c Hc)).
    + intros [Hnil|Hin].
      * subst pos. discriminate.
      * apply in_flat_map in Hin as ([i c] & Hic & Hin).
        apply in_map_iff in Hin as (q & <- & Hq). cbn [fst snd] in *.
        apply in_indexed in Hic. cbn [subnode_at]. rewrite Hic.
        now apply (IH c (Hchild i c Hic)).
    + intro Hsub. destruct pos as [|i q]; [now left|right].
      cbn [subnode_at] in Hsub.
      destruct (nth_error (children root) i) as [c|] eqn:Hc; [|contradiction].
      apply in_flat_map. exists (i, c). split; [now apply in_indexed|].
      apply in_map. now apply (IH c (Hchild i c Hc)).
Qed.

Lemma positions_spec (root : AbstractNode) :
  map (subnode_at root) (positions root) = map Some (preorder root)
  /\ NoDup (positions root)
  /\ (forall pos, In pos (positions root) <-> subnode_at root pos <> None).
Proof. apply positions_upto_spec. apply Nat.le_refl. Qed.


(** ** Consequences for the recorded sequences *)

Lemma recorder_never_suppresses : never_suppresses recorder.
Proof. intros node s. reflexivity. Qed.


Lemma before_hole_nodes {A : Type} (l : list (pointer A)) :
  exists after : list A, nodes_of l = before_hole l ++ after.
Proof.
  induction l as [|[node|] l [after IH]].
  - now exists [].
  - exists after. simpl. now rewrite <- IH.
  - now exists (nodes_of l).
Qed.

Lemma before_hole_all {A : Type} (l : list (pointer A)) :
  no_hole l = true -> before_hole l = nodes_of l.
Proof.
  induction l as [|[node|] l IH]; simpl; intro H; try reflexivity; try discriminate.
  now rewrite IH.
Qed.

(** The recorder run along a listing with holes. *)
Lemma run_itinerary_recorder (l : list (pointer AbstractNode)) :
  forall log : list (pointer AbstractNode),
    run_itinerary recorder l log
    = (if no_hole l then @Completed _ else @Aborted _) (log ++ map Some (before_hole l)).
Proof.
  induction l as [|[node|] l IH]; intro log; simpl.
  - now rewrite app_nil_r.
  - rewrite IH. destruct (no_hole l); now rewrite <- app_assoc.
  - unfold failFast. now rewrite app_nil_r.
Qed.

(** Any visitor that never suppresses, run along a listing with holes,
    does what replaying the recorded sequence does. *)
Lemma run_itinerary_replay (S : Type) (visitor : Visitor S)
    (l : list (pointer AbstractNode)) :
  forall (log : list (pointer AbstractNode)) (s : S),
    run_itinerary visitor l (replay visitor log s)
    = Outcome_map (fun log' => replay visitor log' s) (run_itinerary recorder l log).
Proof.
  induction l as [|[node|] l IH]; intros log s; simpl; try reflexivity.
  rewrite <- IH. now rewrite replay_app.
Qed.

(** Every listing with holes starts with the node itself. *)
Lemma itinerary_head (n : AbstractNode) : itinerary n = Some n :: tl (itinerary n).
Proof.
  destruct n as [| | |st| |p|]; try reflexivity.
  - destruct st as [|v|sc| | | | | |e|i| |]; try reflexivity.
    + destruct sc; reflexivity.
    + destruct e; reflexivity.
    + destruct i; reflexivity.
Qed.

Lemma nodes_of_visited (n : AbstractNode) (visit : bool) :
  nodes_of (visited visit (itinerary n)) = visited visit (preorder n).
Proof.
  destruct (itinerary_Lists n) as [Hnodes _].
  destruct visit; [exact Hnodes|]. simpl.
  rewrite <- Hnodes, (itinerary_head n). reflexivity.
Qed.

Lemma no_hole_visited (n : AbstractNode) (visit : bool) :
  no_hole (visited visit (itinerary n)) = well_formed n.
Proof.
  destruct (itinerary_Lists n) as [_ Hok].
  destruct visit; [exact Hok|]. simpl.
  rewrite <- Hok, (itinerary_head n). reflexivity.
Qed.

(** The recorded sequence of any tree: the nodes of the listing before its
    first hole, and an abort exactly when there is a hole. *)
Lemma trace_itinerary (n : AbstractNode) (visit : bool) :
  trace n visit
  = (if well_formed n then @Completed _ else @Aborted _)
      (map Some (before_hole (visited visit (itinerary n)))).
Proof.
  unfold trace.
  rewrite (Walk_Visits recorder_never_suppresses n visit []).
  now rewrite run_itinerary_recorder, no_hole_visited.
Qed.

(** A traversal by a visitor that never suppresses does to its state what
    replaying the recorded sequence does, and ends the same way. *)
Lemma Walk_replays_trace (S : Type) (visitor : Visitor S) (n : AbstractNode)
    (visit : bool) (s : S) :
  never_suppresses visitor ->
  Walk visitor n visit s = Outcome_map (fun log => replay visitor log s) (trace n visit).
Proof.
  intro Hd. unfold trace.
  rewrite (Walk_Visits Hd n visit s).
  rewrite (Walk_Visits recorder_never_suppresses n visit []).
  apply (run_itinerary_replay visitor (visited visit (itinerary n)) [] s).
Qed.

(** The log kept next to a visitor that never suppresses is the recorded
    sequence. *)
Lemma logged_trace (S : Type) (visitor : Visitor S) (n : AbstractNode)
    (visit : bool) (s : S) :
  never_suppresses visitor -> logged visitor n visit s = trace n visit.
Proof.
  intro Hd.
  pose proof (@Walk_related _ _
                (fun (sl : S * list (pointer AbstractNode)) log => snd sl = log)
                (logging visitor) recorder) as H.
  assert (Hcb : forall (node : AbstractNode) (a : S * list (pointer AbstractNode))
                       (b : list (pointer AbstractNode)),
             snd a = b ->
             snd (fst (logging visitor (Some node) a)) = fst (recorder (Some node) b)
             /\ snd (logging visitor (Some node) a) = snd (recorder (Some node) b)).
  { intros node [s0 log] b Hab. simpl in Hab. subst b. unfold logging. simpl.
    pose proof (Hd node s0) as Hanswer.
    destruct (visitor (Some node) s0) as [s1 answer]. simpl in *. now subst. }
  specialize (H Hcb n visit (s, []) [] eq_refl). unfold logged, trace.
  destruct (Walk (logging visitor) n visit (s, [])), (Walk recorder n visit []);
    simpl in *; try contradiction; now subst.
Qed.

(** Whatever holds of the state before a traversal and is kept by every
    callback fired for a node holds of the state after it. *)
Lemma Walk_invariant (S : Type) (visitor : Visitor S) (Inv : S -> Prop) :
  (forall (node : AbstractNode) (s : S), Inv s -> Inv (fst (visitor (Some node) s))) ->
  forall (n : AbstractNode) (visit : bool) (s : S),
    Inv s -> Inv (state_of (Walk visitor n visit s)).
Proof.
  intros Hkeep n visit s Hs.
  pose proof (@Walk_related _ _ (fun a b : S => a = b /\ Inv a) visitor visitor) as H.
  assert (Hcb : forall (node : AbstractNode) (a b : S),
             a = b /\ Inv a ->
             (fst (visitor (Some node) a) = fst (visitor (Some node) b)
              /\ Inv (fst (visitor (Some node) a)))
             /\ snd (visitor (Some node) a) = snd (visitor (Some node) b)).
  { intros node a b [-> Hb]. repeat split. now apply Hkeep. }
  specialize (H Hcb n visit s s (conj eq_refl Hs)).
  destruct (Walk visitor n visit s); simpl in *; apply H.
Qed.

(** No visitor, suppressing or not, is ever fired for the null position. *)
Lemma logged_no_null (S : Type) (visitor : Visitor S) (n : AbstractNode)
    (visit : bool) (s : S) :
  Forall (fun node => node <> nullptr) (state_of (logged visitor n visit s)).
Proof.
  unfold logged.
  assert (H : Forall (fun node : pointer AbstractNode => node <> None)
                (snd (state_of (Walk (logging visitor) n visit (s, []))))).
  { apply (@Walk_invariant _ (logging visitor)
             (fun sl => Forall (fun node : pointer AbstractNode => node <> None) (snd sl)));
      [|constructor].
    intros node [s0 log] Hlog. unfold logging. simpl in *.
    destruct (visitor (Some node) s0) as [s1 answer]. simpl.
    apply Forall_app. split; [exact Hlog|]. constructor; [discriminate|constructor]. }
  destruct (Walk (logging visitor) n visit (s, [])); exact H.
Qed.

(** A call is the callback for the node, when [visit] is set and with its
    answer heeded, around what the call with [visit] unset does. *)
Lemma Walk_visiting (S : Type) (visitor : Visitor S) (n : AbstractNode) (visit : bool)
    (s : S) :
  Walk visitor n visit s = visiting visitor visit n (Walk visitor n false) s.
Proof.
  destruct n as [| | |st| |p|]; try reflexivity.
  - destruct st as [|v|sc| | | | | |e|i| |]; try reflexivity.
    + destruct sc; reflexivity.
    + destruct e; reflexivity.
    + destruct i; reflexivity.
Qed.

(** ** The traversal contract *)

(** The declared field order of the variants the contract names. *)
Lemma children_IfNode (c : unique_ptr ExpressionNode) (sc : unique_ptr ScopeNode)
    (e : unique_ptr IfNode) :
  children (Abstract_If (Build_IfNode c sc e))
  = present Abstract_Expression c ++ present Abstract_Scope sc ++ present Abstract_If e.
Proof. reflexivity. Qed.

Lemma children_BinaryOperatorNode (op : Token) (l r : ExpressionNode) :
  children (Abstract_Expression (BinaryOperatorNode op (Some l) (Some r)))
  = [Abstract_Expression l; Abstract_Expression r].
Proof. reflexivity. Qed.

Lemma children_CallNode (callee : ExpressionNode) (args : unique_vector ExpressionNode) :
  children (Abstract_Expression (CallNode (Some callee) args))
  = Abstract_Expression callee :: present_each Abstract_Expression args.
Proof. reflexivity. Qed.

(** C1. On a well-formed tree, [Walk] from the root records exactly the
    pre-order listing of the tree: the root, then the listings of its owned
    children in declaration order, where a node owns whatever its
    [unique_ptr] fields and the entries of its [unique_vector] fields
    hold.  Any visitor that does not suppress the recursion gets the
    callbacks of that listing, in that order.  The recorded sequence runs
    through the positions of the tree, every position once: [positions
    root] has no duplicate, holds exactly the positions at which the tree
    has a node, and the k-th node recorded is the node at the k-th
    position. *)
Theorem Walk_visits_every_node_once_in_preorder :
  forall root : AbstractNode,
    well_formed root = true ->
    trace root true = Completed (map Some (preorder root))
    /\ (forall (S : Type) (visitor : Visitor S) (s : S),
          never_suppresses visitor ->
          Walk visitor root true s
          = Completed (replay visitor (map Some (preorder root)) s))
    /\ preorder root = root :: flat_map preorder (children root)
    /\ trace root true = Completed (map (subnode_at root) (positions root))
    /\ NoDup (positions root)
    /\ (forall pos : Position, In pos (positions root) <-> subnode_at root pos <> None).
Proof.
  intros root Hwf.
  assert (Htrace : trace root true = Completed (map Some (preorder root))).
  { rewrite trace_itinerary, Hwf. f_equal. f_equal.
    rewrite before_hole_all by (now rewrite no_hole_visited).
    apply (nodes_of_visited root true). }
  destruct (positions_spec root) as (Hmap & Hnodup & Hin).
  split; [exact Htrace|]. split; [|split; [|split; [|split]]].
  - intros S visitor s Hd. now rewrite (Walk_replays_trace root true s Hd), Htrace.
  - apply preorder_children.
  - now rewrite Hmap.
  - exact Hnodup.
  - exact Hin.
Qed.

Lemma Walk_visits_every_node_once_in_preorder_witness :
  well_formed Samples.program_f = true
  /\ trace Samples.program_f true = Completed (map Some (preorder Samples.program_f)).
Proof.
  split; [reflexivity|].
  exact (proj1 (Walk_visits_every_node_once_in_preorder Samples.program_f eq_refl)).
Defined.

(** C3. No traversal, of any tree and with either value of [visit], asks
    the visitor to visit the null position: every entry of the recorded
    sequence is a node, one that the pre-order listing of the populated
    slots names, and so is every entry of the sequence logged next to any
    visitor, whether it suppresses recursions or not.  An absent optional
    slot is a step that changes nothing, and the callbacks a visitor that
    never suppresses receives are those recorded. *)
Theorem Walk_never_visits_null :
  forall (n : AbstractNode) (visit : bool),
    Forall (fun node => node <> nullptr) (state_of (trace n visit))
    /\ (exists before after : list AbstractNode,
          visited visit (preorder n) = before ++ after
          /\ state_of (trace n visit) = map Some before)
    /\ (forall (S : Type) (visitor : Visitor S) (s : S),
          Forall (fun node => node <> nullptr) (state_of (logged visitor n visit s)))
    /\ (forall (S : Type) (visitor : Visitor S) (s : S),
          never_suppresses visitor ->
          Walk visitor n visit s
          = Outcome_map (fun log => replay visitor log s) (trace n visit))
    /\ (forall (S T : Type) (W : T -> Pass S) (s : S),
          walk_optional W nullptr s = Completed s).
Proof.
  intros n visit.
  assert (Hlisted : exists before after : list AbstractNode,
             visited visit (preorder n) = before ++ after
             /\ state_of (trace n visit) = map Some before).
  { destruct (before_hole_nodes (visited visit (itinerary n))) as [after Hafter].
    exists (before_hole (visited visit (itinerary n))), after.
    rewrite <- nodes_of_visited. split; [exact Hafter|].
    rewrite trace_itinerary. now destruct (well_formed n). }
  split; [|split; [exact Hlisted|split; [|split]]].
  - destruct Hlisted as (before & _ & _ & ->).
    apply Forall_forall. intros node Hin.
    apply in_map_iff in Hin as (x & <- & _). discriminate.
  - intros S visitor s. apply logged_no_null.
  - intros S visitor s Hd. now apply Walk_replays_trace.
  - reflexivity.
Qed.

Lemma Walk_never_visits_null_witness :
  never_suppresses recorder
  /\ Walk recorder Samples.f_without_body true []
     = Outcome_map (fun log => replay recorder log [])
         (trace Samples.f_without_body true).
Proof.
  split; [intros node s; reflexivity|].
  exact (proj1 (proj2 (proj2 (proj2
           (Walk_never_visits_null Samples.f_without_body true))))
           _ recorder [] (fun node s => eq_refl)).
Defined.






(** ** Slots and positions *)

Lemma populated_app (l1 l2 : list Slot) :
  populated (l1 ++ l2) = populated l1 ++ populated l2.
Proof. apply flat_map_app. Qed.

Lemma populated_required {T : Type} (up : T -> AbstractNode) (field : unique_ptr T)
    (rest : list Slot) :
  populated (required up field :: rest) = present up field ++ populated rest.
Proof. destruct field; reflexivity. Qed.

Lemma populated_nullable {T : Type} (up : T -> AbstractNode) (field : unique_ptr T)
    (rest : list Slot) :
  populated (nullable up field :: rest) = present up field ++ populated rest.
Proof. destruct field; reflexivity. Qed.

Lemma populated_entries {T : Type} (up : T -> AbstractNode) (field : unique_vector T) :
  populated (entries up field) = present_each up field.
Proof.
  induction field as [|slot field IH]; [reflexivity|].
  change (entries up (slot :: field)) with (required up slot :: entries up field).
  rewrite populated_required, IH. reflexivity.
Qed.

(** The owned children of a node are what its slots own. *)
Lemma children_populated (n : AbstractNode) : children n = populated (slots n).
Proof.
  destruct n as [| | |s| |p|]; try reflexivity;
    try destruct s as [|v|sc| | | | | |e|i| |]; try destruct v; try destruct sc;
    try destruct e; try destruct i; try destruct p;
    cbn [children children_Statement children_Scope children_If children_Expression
         children_Variable children_Parameter
         slots slots_Statement slots_Scope slots_If slots_Expression
         slots_Variable slots_Parameter];
    repeat first [ rewrite populated_app | rewrite populated_required
                 | rewrite populated_nullable | rewrite populated_entries ];
    cbn [populated flat_map]; rewrite ?app_nil_r; reflexivity.
Qed.

Lemma subnode_at_app (root : AbstractNode) (pos rest : Position) :
  subnode_at root (pos ++ rest)
  = match subnode_at root pos with
    | Some node => subnode_at node rest
    | None => None
    end.
Proof.
  revert root. induction pos as [|i pos IH]; intro root; [reflexivity|].
  simpl. destruct (nth_error (children root) i); [apply IH|reflexivity].
Qed.

Lemma subnode_at_child (root : AbstractNode) (pos : Position) (node : AbstractNode)
    (k : nat) :
  subnode_at root pos = Some node ->
  subnode_at root (pos ++ [k]) = nth_error (populated (slots node)) k.
Proof.
  intro H. rewrite subnode_at_app, H, <- children_populated. simpl.
  now destruct (nth_error (children node) k).
Qed.

Lemma preorder_nonempty (n : AbstractNode) : 1 <= length (preorder n).
Proof. rewrite preorder_children. simpl. lia. Qed.

Lemma subnode_smaller (pos : Position) :
  forall root node : AbstractNode,
    subnode_at root pos = Some node ->
    length (preorder node) <= length (preorder root).
Proof.
  induction pos as [|i pos IH]; intros root node H; simpl in H.
  - injection H as <-. apply Nat.le_refl.
  - destruct (nth_error (children root) i) as [child|] eqn:Hchild; [|discriminate].
    apply IH in H. apply nth_error_In, preorder_child_smaller in Hchild. lia.
Qed.

(** ** The traversal of the tree in memory *)

Section InPlace_invariant.

Variable S : Type.
Variable visitor : InPlaceVisitor S.
Variable Inv : World S -> Prop.

(** Every callback fired for a position keeps [Inv]. *)
Hypothesis callbacks_keep :
  forall (this : Position) (w : World S), Inv w -> Inv (fst (visitor (Some this) w)).

Lemma walk_slots_at_invariant (walk : Position -> World S -> Run (World S)) :
  (forall child w, Inv w -> Run_keeps Inv (walk child w)) ->
  forall (slots : list Slot) (this : Position) (index : nat) (w : World S),
    Inv w -> Run_keeps Inv (walk_slots_at walk this index slots w).
Proof.
  intros Hwalk slots. induction slots as [|slot rest IH]; intros this index w Hw.
  - exact Hw.
  - cbn [walk_slots_at]. destruct (owned_by slot).
    + specialize (Hwalk (this ++ [index]) w Hw).
      destruct (walk (this ++ [index]) w) as [[w'|w']|]; simpl in *; auto.
    + destruct (is_required slot); [exact Hw|now apply IH].
Qed.

(** Whatever holds of the world before a traversal and is kept by every
    callback holds of the world after it: [Walk] itself writes nothing. *)
Lemma Walk_within_invariant (fuel : nat) :
  forall (this : Position) (visit : bool) (w : World S),
    Inv w -> Run_keeps Inv (Walk_within visitor fuel this visit w).
Proof.
  induction fuel as [|fuel IH]; intros this visit w Hw; [exact I|].
  cbn [Walk_within].
  assert (Hbelow : forall w', Inv w' ->
             Run_keeps Inv (walk_children_at (fun child => Walk_within visitor fuel child true)
                          this w')).
  { intros w' Hw'. unfold walk_children_at.
    destruct (subnode_at (program w') this); [|exact Hw'].
    apply walk_slots_at_invariant; [|exact Hw'].
    intros child w0 Hw0. now apply IH. }
  destruct (subnode_at (program w) this); [|exact Hw].
  destruct visit; [|now apply Hbelow].
  specialize (callbacks_keep this Hw).
  destruct (visitor (Some this) w) as [w' [|]]; simpl in *; [now apply Hbelow|assumption].
Qed.

End InPlace_invariant.

Section InPlace_result.

Variable S : Type.
Variable visitor : InPlaceVisitor S.

Hypothesis tree_kept : preserves_program visitor.

Lemma walk_slots_at_ends (fuel : nat) (walk : Position -> World S -> Run (World S))
    (root : AbstractNode) :
  (forall child w node,
      program w = root -> subnode_at root child = Some node ->
      length (preorder node) <= fuel -> Ends_with_tree root (walk child w)) ->
  forall (slots : list Slot) (this : Position) (index : nat) (w : World S),
    program w = root ->
    (forall k child, nth_error (populated slots) k = Some child ->
                     subnode_at root (this ++ [index + k]) = Some child
                     /\ length (preorder child) <= fuel) ->
    Ends_with_tree root (walk_slots_at walk this index slots w).
Proof.
  intros Hwalk slots. induction slots as [|slot rest IH]; intros this index w Hw Hvalid.
  - now exists (Completed w).
  - cbn [walk_slots_at]. unfold populated in Hvalid. cbn [flat_map] in Hvalid.
    fold (populated rest) in Hvalid.
    destruct (owned_by slot) as [child|]; cbn [present app] in Hvalid.
    + destruct (Hvalid 0 child eq_refl) as [Hchild Hsize].
      rewrite Nat.add_0_r in Hchild.
      destruct (Hwalk (this ++ [index]) w child Hw Hchild Hsize) as (o & -> & Ho).
      destruct o as [w'|w']; [|now exists (Aborted w')].
      apply IH; [exact Ho|].
      intros k c Hk. specialize (Hvalid (Datatypes.S k) c Hk).
      now rewrite Nat.add_succ_r in Hvalid.
    + destruct (is_required slot); [now exists (Aborted w)|].
      now apply IH.
Qed.

(** With fuel for the node at [this], a traversal by a visitor that leaves
    the tree alone ends, and the tree is as it was. *)
Lemma Walk_within_ends (fuel : nat) :
  forall (this : Position) (visit : bool) (w : World S) (node : AbstractNode),
    subnode_at (program w) this = Some node ->
    length (preorder node) <= fuel ->
    Ends_with_tree (program w) (Walk_within visitor fuel this visit w).
Proof.
  induction fuel as [|fuel IH]; intros this visit w node Hnode Hfuel.
  - pose proof (preorder_nonempty node). lia.
  - cbn [Walk_within]. rewrite Hnode.
    assert (Hbelow : forall w', program w' = program w ->
               Ends_with_tree (program w)
                 (walk_children_at (fun child => Walk_within visitor fuel child true)
                    this w')).
    { intros w' Hw'. unfold walk_children_at. rewrite Hw', Hnode.
      apply walk_slots_at_ends with (fuel := fuel); [|exact Hw'|].
      - intros child w0 c Hw0 Hc Hsize. rewrite <- Hw0 in Hc.
        rewrite <- Hw0. now apply IH with (node := c).
      - intros k child Hk. simpl. split.
        + rewrite (@subnode_at_child _ _ node k Hnode). exact Hk.
        + rewrite <- children_populated in Hk.
          apply nth_error_In, preorder_child_smaller in Hk. lia. }
    destruct visit; [|now apply Hbelow].
    pose proof (tree_kept this w) as Hkept.
    destruct (visitor (Some this) w) as [w' [|]]; simpl in Hkept.
    + now apply Hbelow.
    + now exists (Completed w').
Qed.

Lemma Walk_at_ends (this : Position) (visit : bool) (w : World S) :
  Ends_with_tree (program w) (Walk_at visitor this visit w).
Proof.
  unfold Walk_at.
  destruct (subnode_at (program w) this) as [node|] eqn:Hnode.
  - apply Walk_within_ends with (node := node); [exact Hnode|].
    now apply subnode_smaller with (pos := this).
  - pose proof (preorder_nonempty (program w)) as Hfuel.
    destruct (length (preorder (program w))) as [|fuel]; [lia|].
    cbn [Walk_within]. rewrite Hnode. now exists (Aborted w).
Qed.

End InPlace_result.

(** *** Two traversals of the tree in memory, side by side *)

Section InPlace_simulation.

Variables S1 S2 : Type.
Variable R : World S1 -> World S2 -> Prop.
Variable visitor1 : InPlaceVisitor S1.
Variable visitor2 : InPlaceVisitor S2.

(** Related worlds hold the same tree. *)
Hypothesis same_tree : forall w1 w2, R w1 w2 -> program w1 = program w2.

(** Fired for a position in related worlds, the callbacks leave related
    worlds and give the same answer. *)
Hypothesis callbacks_related :
  forall (this : Position) (w1 : World S1) (w2 : World S2),
    R w1 w2 ->
    R (fst (visitor1 (Some this) w1)) (fst (visitor2 (Some this) w2))
    /\ snd (visitor1 (Some this) w1) = snd (visitor2 (Some this) w2).

Lemma walk_slots_at_related (walk1 : Position -> World S1 -> Run (World S1))
    (walk2 : Position -> World S2 -> Run (World S2)) :
  (forall child w1 w2, R w1 w2 -> Run_rel R (walk1 child w1) (walk2 child w2)) ->
  forall (slots : list Slot) (this : Position) (index : nat) w1 w2,
    R w1 w2 ->
    Run_rel R (walk_slots_at walk1 this index slots w1)
      (walk_slots_at walk2 this index slots w2).
Proof.
  intros Hwalk slots. induction slots as [|slot rest IH]; intros this index w1 w2 Hw.
  - exact Hw.
  - cbn [walk_slots_at]. destruct (owned_by slot).
    + specialize (Hwalk (this ++ [index]) w1 w2 Hw).
      destruct (walk1 (this ++ [index]) w1) as [[w1'|w1']|],
               (walk2 (this ++ [index]) w2) as [[w2'|w2']|];
        simpl in Hwalk; try contradiction; try exact Hwalk.
      now apply IH.
    + destruct (is_required slot); [exact Hw|now apply IH].
Qed.

Lemma Walk_within_related (fuel : nat) :
  forall (this : Position) (visit : bool) w1 w2,
    R w1 w2 ->
    Run_rel R (Walk_within visitor1 fuel this visit w1)
      (Walk_within visitor2 fuel this visit w2).
Proof.
  induction fuel as [|fuel IH]; intros this visit w1 w2 Hw; [exact I|].
  cbn [Walk_within].
  assert (Hbelow : forall w1' w2', R w1' w2' ->
             Run_rel R
               (walk_children_at (fun child => Walk_within visitor1 fuel child true)
                  this w1')
               (walk_children_at (fun child => Walk_within visitor2 fuel child true)
                  this w2')).
  { intros w1' w2' Hw'. unfold walk_children_at.
    rewrite (same_tree Hw'). destruct (subnode_at (program w2') this); [|exact Hw'].
    apply walk_slots_at_related; [|exact Hw'].
    intros child x y Hxy. now apply IH. }
  rewrite (same_tree Hw). destruct (subnode_at (program w2) this); [|exact Hw].
  destruct visit; [|now apply Hbelow].
  destruct (callbacks_related this Hw) as [Hworld Hanswer].
  destruct (visitor1 (Some this) w1) as [w1' answer1].
  destruct (visitor2 (Some this) w2) as [w2' answer2].
  simpl in *. subst answer2. destruct answer1; [now apply Hbelow|exact Hworld].
Qed.

End InPlace_simulation.

(** *** The traversal of a tree value and the traversal in memory *)

Section Slots_of_Walk.

Variable S : Type.
Variable visitor : Visitor S.

Local Open Scope pass_scope.

Lemma andThen_skip_r (a : Pass S) (s : S) : a s = (a ;; skip) s.
Proof. unfold andThen. now destruct (a s). Qed.

Lemma andThen_congr (a b b' : Pass S) (s : S) :
  (forall s', b s' = b' s') -> (a ;; b) s = (a ;; b') s.
Proof. intro H. unfold andThen. destruct (a s); [apply H|reflexivity]. Qed.

Lemma andThen_assoc (a b c : Pass S) (s : S) :
  ((a ;; b) ;; c) s = (a ;; b ;; c) s.
Proof. unfold andThen. now destruct (a s). Qed.

Lemma walk_slots_required {T : Type} (up : T -> AbstractNode) (field : unique_ptr T)
    (rest : list Slot) (s : S) :
  walk_slots visitor (required up field :: rest) s
  = (walk_mandatory (fun child => Walk visitor (up child) true) field ;;
     walk_slots visitor rest) s.
Proof. destruct field; reflexivity. Qed.

Lemma walk_slots_nullable {T : Type} (up : T -> AbstractNode) (field : unique_ptr T)
    (rest : list Slot) (s : S) :
  walk_slots visitor (nullable up field :: rest) s
  = (walk_optional (fun child => Walk visitor (up child) true) field ;;
     walk_slots visitor rest) s.
Proof. destruct field; reflexivity. Qed.

Lemma walk_slots_entries_app {T : Type} (up : T -> AbstractNode)
    (field : unique_vector T) (rest : list Slot) :
  forall s : S,
    walk_slots visitor (entries up field ++ rest) s
    = (walk_each (fun child => Walk visitor (up child) true) field ;;
       walk_slots visitor rest) s.
Proof.
  induction field as [|slot field IH]; intro s; [reflexivity|].
  change (entries up (slot :: field) ++ rest)
    with (required up slot :: (entries up field ++ rest)).
  rewrite walk_slots_required. cbn [walk_each]. rewrite andThen_assoc.
  apply andThen_congr. exact IH.
Qed.

Lemma walk_slots_entries {T : Type} (up : T -> AbstractNode) (field : unique_vector T)
    (s : S) :
  walk_slots visitor (entries up field) s
  = walk_each (fun child => Walk visitor (up child) true) field s.
Proof.
  rewrite <- (app_nil_r (entries up field)), walk_slots_entries_app.
  symmetry. apply andThen_skip_r.
Qed.

Ltac slotwise :=
  repeat first
    [ reflexivity
    | rewrite walk_slots_entries
    | rewrite walk_slots_entries_app
    | rewrite walk_slots_required
    | rewrite walk_slots_nullable
    | apply andThen_skip_r
    | apply andThen_congr; intro ].

(** With [visit] unset, a call walks the slots of the node in order. *)
Lemma Walk_slots (n : AbstractNode) (s : S) :
  Walk visitor n false s = walk_slots visitor (slots n) s.
Proof.
  destruct n as [| | |st| |p|]; try reflexivity;
    try destruct st as [|v|sc| | | | | |e|i| |]; try destruct v; try destruct sc;
    try destruct e; try destruct i; try destruct p;
    try reflexivity;
    cbn [Walk Walk_Statement Walk_Scope Walk_If Walk_Expression Walk_Variable
         Walk_Parameter
         slots slots_Statement slots_Scope slots_If slots_Expression
         slots_Variable slots_Parameter];
    unfold visiting; solve [slotwise].
Qed.

End Slots_of_Walk.

Section Reading.

Variable S : Type.
Variable visitor : Visitor S.

Lemma walk_slots_at_reading (fuel : nat) (root : AbstractNode) :
  (forall (child : Position) (visit : bool) (s : S) (node : AbstractNode),
      subnode_at root child = Some node ->
      length (preorder node) <= fuel ->
      Walk_within (reading visitor) fuel child visit (world root s)
      = Some (Outcome_map (world root) (Walk visitor node visit s))) ->
  forall (slots : list Slot) (this : Position) (index : nat) (s : S),
    (forall k child, nth_error (populated slots) k = Some child ->
                     subnode_at root (this ++ [index + k]) = Some child
                     /\ length (preorder child) <= fuel) ->
    walk_slots_at (fun child => Walk_within (reading visitor) fuel child true)
      this index slots (world root s)
    = Some (Outcome_map (world root) (walk_slots visitor slots s)).
Proof.
  intros Hwalk slots. induction slots as [|slot rest IH]; intros this index s Hvalid.
  - reflexivity.
  - cbn [walk_slots_at walk_slots]. unfold populated in Hvalid.
    cbn [flat_map] in Hvalid. fold (populated rest) in Hvalid.
    destruct (owned_by slot) as [child|]; cbn [present app] in Hvalid.
    + destruct (Hvalid 0 child eq_refl) as [Hchild Hsize].
      rewrite Nat.add_0_r in Hchild.
      rewrite (Hwalk (this ++ [index]) true s child Hchild Hsize).
      unfold andThen. destruct (Walk visitor child true s) as [s'|s']; [|reflexivity].
      cbn [Outcome_map]. apply IH.
      intros k c Hk. specialize (Hvalid (Datatypes.S k) c Hk).
      now rewrite Nat.add_succ_r in Hvalid.
    + destruct (is_required slot); [reflexivity|]. now apply IH.
Qed.

(** With fuel for the node, the traversal in memory by a visitor that only
    reads the tree is the traversal of the node as a value. *)
Lemma Walk_within_reading (fuel : nat) (root : AbstractNode) :
  forall (this : Position) (visit : bool) (s : S) (node : AbstractNode),
    subnode_at root this = Some node ->
    length (preorder node) <= fuel ->
    Walk_within (reading visitor) fuel this visit (world root s)
    = Some (Outcome_map (world root) (Walk visitor node visit s)).
Proof.
  induction fuel as [|fuel IH]; intros this visit s node Hnode Hfuel.
  - pose proof (preorder_nonempty node). lia.
  - cbn [Walk_within]. cbn [world program]. rewrite Hnode.
    assert (Hbelow : forall s',
               walk_children_at
                 (fun child => Walk_within (reading visitor) fuel child true)
                 this (world root s')
               = Some (Outcome_map (world root) (Walk visitor node false s'))).
    { intro s'. unfold walk_children_at. cbn [world program]. rewrite Hnode.
      rewrite Walk_slots. apply walk_slots_at_reading; [exact IH|].
      intros k child Hk. simpl. split.
      - rewrite (@subnode_at_child _ _ node k Hnode). exact Hk.
      - rewrite <- children_populated in Hk.
        apply nth_error_In, preorder_child_smaller in Hk. lia. }
    rewrite Walk_visiting. unfold visiting.
    destruct visit; [|apply Hbelow].
    unfold reading. cbn [world program external]. rewrite Hnode.
    destruct (visitor (Some node) s) as [s' [|]]; [apply Hbelow|reflexivity].
Qed.

(** The traversal of a tree value is the traversal in memory by a visitor
    that only reads the tree. *)
Lemma Walk_at_reading (root : AbstractNode) (this : Position) (visit : bool) (s : S)
    (node : AbstractNode) :
  subnode_at root this = Some node ->
  Walk_at (reading visitor) this visit (world root s)
  = Some (Outcome_map (world root) (Walk visitor node visit s)).
Proof.
  intro Hnode. unfold Walk_at. apply Walk_within_reading; [exact Hnode|].
  now apply subnode_smaller with (pos := this).
Qed.

End Reading.

(** *** What the traversal writes *)

(** C6. [Walk] never mutates the tree.  Run on the tree held in memory,
    from any position and with either value of [visit], with a visitor
    none of whose callbacks alters the tree, the traversal ends, completed
    or aborted, and the tree in memory is then the tree it started on; so
    it is after any bounded number of nested calls that ends.  The visitor
    may write its external state and may suppress recursions.  With a
    visitor that only reads the tree, the traversal in memory from a node
    is [Walk] on that node as a value: every callback is handed a node of
    the tree as it was at the start. *)
Theorem Walk_preserves_program :
  forall (S : Type) (visitor : InPlaceVisitor S),
    preserves_program visitor ->
    forall (this : Position) (visit : bool) (w : World S),
      (exists o : Outcome (World S),
          Walk_at visitor this visit w = Some o /\ program (state_of o) = program w)
      /\ (forall (fuel : nat) (o : Outcome (World S)),
            Walk_within visitor fuel this visit w = Some o ->
            program (state_of o) = program w)
      /\ (forall (reader : Visitor S) (node : AbstractNode),
            subnode_at (program w) this = Some node ->
            Walk_at (reading reader) this visit w
            = Some (Outcome_map (world (program w))
                      (Walk reader node visit (external w)))).
Proof.
  intros S visitor Hkept this visit w. split; [|split].
  - apply Walk_at_ends. exact Hkept.
  - intros fuel o Ho.
    pose proof (@Walk_within_invariant S visitor (fun w' => program w' = program w))
      as Hinv.
    assert (Hcb : forall (pos : Position) (w' : World S),
               program w' = program w ->
               program (fst (visitor (Some pos) w')) = program w).
    { intros pos w' Hw'. now rewrite Hkept. }
    specialize (Hinv Hcb fuel this visit w eq_refl). rewrite Ho in Hinv. exact Hinv.
  - intros reader node Hnode. destruct w as [root s].
    apply (Walk_at_reading reader root this visit s Hnode).
Qed.

Lemma Walk_preserves_program_witness :
  preserves_program Samples.counter
  /\ exists o : Outcome (World nat),
       Walk_at Samples.counter [] true (world Samples.program_f 0) = Some o
       /\ program (state_of o) = Samples.program_f.
Proof.
  split; [intros this w; reflexivity|].
  exact (proj1 (@Walk_preserves_program nat Samples.counter
                  (fun this w => eq_refl) [] true (world Samples.program_f 0))).
Defined.

(** A visitor that logs leaves alone what the visitor it wraps does. *)
Lemma logging_at_preserves_program (S : Type) (visitor : InPlaceVisitor S) :
  preserves_program visitor -> preserves_program (logging_at visitor).
Proof.
  intros Hkept this w. unfold logging_at.
  pose proof (Hkept this (without_log w)) as H.
  destruct (visitor (Some this) (without_log w)) as [w' answer]. exact H.
Qed.

(** C7. Traversal is deterministic and idempotent.  Two traversals in a
    row of the tree in memory, from the same position, by a visitor whose
    callbacks alter neither the tree nor the part [view] of its external
    state that its answers depend on, both end, end the same way and log
    the same visitation sequence; the second starts in the world the first
    has left.  A visitor that performs no mutation at all is the case
    where [view] is the identity. *)
Theorem Walk_twice_same_sequence :
  forall (S A : Type) (visitor : InPlaceVisitor S) (view : S -> A),
    preserves_program visitor ->
    keeps view visitor ->
    decides_by view visitor ->
    forall (this : Position) (visit : bool) (w : World S),
    exists first second : Outcome (World (S * list (pointer Position))),
      Walk_at (logging_at visitor) this visit (with_log w []) = Some first
      /\ Walk_at (logging_at visitor) this visit
           (with_log (without_log (state_of first)) [])
         = Some second
      /\ Outcome_map log_of first = Outcome_map log_of second.
Proof.
  intros S A visitor view Hkept Hview Hdecides this visit w.
  destruct (@Walk_at_ends _ (logging_at visitor) (logging_at_preserves_program Hkept)
              this visit (with_log w []))
    as (first & Hfirst & Htree).
  exists first.
  (* the world the first traversal leaves *)
  assert (Hleft : view (fst (external (state_of first))) = view (external w)).
  { pose proof (@Walk_within_invariant _ (logging_at visitor)
                  (fun wl => view (fst (external wl)) = view (external w))) as Hinv.
    assert (Hcb : forall (pos : Position) (wl : World (S * list (pointer Position))),
               view (fst (external wl)) = view (external w) ->
               view (fst (external (fst (logging_at visitor (Some pos) wl))))
               = view (external w)).
    { intros pos wl Hwl. unfold logging_at.
      pose proof (Hview pos (without_log wl)) as Hk.
      destruct (visitor (Some pos) (without_log wl)) as [w' answer].
      simpl in *. now rewrite Hk. }
    specialize (Hinv Hcb (length (preorder (program (with_log w [])))) this visit
                  (with_log w []) eq_refl).
    unfold Walk_at in Hfirst. rewrite Hfirst in Hinv. exact Hinv. }
  (* the two traversals side by side *)
  pose proof (@Walk_within_related _ _
                (fun w1 w2 : World (S * list (pointer Position)) =>
                   program w1 = program w2
                   /\ view (fst (external w1)) = view (fst (external w2))
                   /\ log_of w1 = log_of w2)
                (logging_at visitor) (logging_at visitor)) as Hsim.
  assert (Hsame : forall w1 w2 : World (S * list (pointer Position)),
             program w1 = program w2
             /\ view (fst (external w1)) = view (fst (external w2))
             /\ log_of w1 = log_of w2 ->
             program w1 = program w2) by (intros w1 w2 H; apply H).
  assert (Hcb : forall (pos : Position) (w1 w2 : World (S * list (pointer Position))),
             program w1 = program w2
             /\ view (fst (external w1)) = view (fst (external w2))
             /\ log_of w1 = log_of w2 ->
             (program (fst (logging_at visitor (Some pos) w1))
              = program (fst (logging_at visitor (Some pos) w2))
              /\ view (fst (external (fst (logging_at visitor (Some pos) w1))))
                 = view (fst (external (fst (logging_at visitor (Some pos) w2))))
              /\ log_of (fst (logging_at visitor (Some pos) w1))
                 = log_of (fst (logging_at visitor (Some pos) w2)))
             /\ snd (logging_at visitor (Some pos) w1)
                = snd (logging_at visitor (Some pos) w2)).
  { intros pos w1 w2 (Hp & Hv & Hl). unfold logging_at.
    pose proof (Hkept pos (without_log w1)) as Hp1.
    pose proof (Hkept pos (without_log w2)) as Hp2.
    pose proof (Hview pos (without_log w1)) as Hv1.
    pose proof (Hview pos (without_log w2)) as Hv2.
    pose proof (Hdecides pos (without_log w1) (without_log w2) Hp Hv) as Hd.
    destruct (visitor (Some pos) (without_log w1)) as [w1' answer1].
    destruct (visitor (Some pos) (without_log w2)) as [w2' answer2].
    unfold log_of, with_log in *. simpl in *. repeat split; congruence. }
  specialize (Hsim Hsame Hcb (length (preorder (program w))) this visit
                (with_log w []) (with_log (without_log (state_of first)) [])).
  assert (Hstart : program (with_log w []) =
                   program (with_log (without_log (state_of first)) [])
                   /\ view (fst (external (with_log w [])))
                      = view (fst (external (with_log (without_log (state_of first)) [])))
                   /\ log_of (with_log w [])
                      = log_of (with_log (without_log (state_of first)) [])).
  { simpl. repeat split; [now rewrite Htree|now rewrite Hleft]. }
  specialize (Hsim Hstart).
  unfold Walk_at in *.
  change (program (with_log w [])) with (program w) in *.
  change (program (with_log (without_log (state_of first)) []))
    with (program (state_of first)).
  rewrite Htree. rewrite Hfirst in Hsim.
  destruct (Walk_within (logging_at visitor) (length (preorder (program w))) this visit
              (with_log (without_log (state_of first)) []))
    as [second|]; simpl in Hsim; [|contradiction].
  exists second. split; [exact Hfirst|]. split; [reflexivity|].
  destruct first, second; simpl in Hsim; try contradiction;
    destruct Hsim as (_ & _ & Hlog); simpl; now rewrite Hlog.
Qed.

Lemma Walk_twice_same_sequence_witness :
  preserves_program Samples.counter
  /\ keeps (fun _ : nat => tt) Samples.counter
  /\ decides_by (fun _ : nat => tt) Samples.counter
  /\ exists first second : Outcome (World (nat * list (pointer Position))),
       Walk_at (logging_at Samples.counter) [] true
         (with_log (world Samples.program_f 0) []) = Some first
       /\ Walk_at (logging_at Samples.counter) [] true
            (with_log (without_log (state_of first)) []) = Some second
       /\ Outcome_map log_of first = Outcome_map log_of second.
Proof.
  split; [intros this w; reflexivity|].
  split; [intros this w; reflexivity|].
  split; [intros this w1 w2 Hp Hv; reflexivity|].
  exact (@Walk_twice_same_sequence nat unit Samples.counter (fun _ => tt)
           (fun this w => eq_refl) (fun this w => eq_refl)
           (fun this w1 w2 Hp Hv => eq_refl) [] true (world Samples.program_f 0)).
Defined.

(** Leaving the tree alone is not enough: a visitor whose answers depend
    on a counter it advances sees two different sequences. *)
Example Walk_twice_differs_for_once :
  preserves_program Samples.once
  /\ option_map (Outcome_map log_of)
       (Walk_at (logging_at Samples.once) [] true
          (with_log (world Samples.program_f 0) []))
     = Some (Completed [Some []; Some [0]])
  /\ option_map (Outcome_map log_of)
       (Walk_at (logging_at Samples.once) [] true
          (with_log (world Samples.program_f 2) []))
     = Some (Completed [Some []]).
Proof. split; [intros this w; reflexivity|]. split; reflexivity. Qed.

(** The traversal in memory by the recorder of tree values. *)
Example Walk_at_reading_program_f :
  Walk_at (reading recorder) [] true (world Samples.program_f [])
  = Some (Completed (world Samples.program_f (map Some (preorder Samples.program_f)))).
Proof. reflexivity. Qed.
(** ** Invariants of the node classes *)

(** C5 as stated does not hold: a [ForNode] with both initializers
    populated has every mandatory slot populated throughout, so the
    well-formed [ForNode]s are not all of the "at most one initializer"
    kind. *)
Lemma For_initializers_not_exclusive :
  ~ (forall (iv : unique_ptr VariableNode) (ie c it : unique_ptr ExpressionNode)
            (sc : unique_ptr ScopeNode),
        well_formed_Statement (ForNode iv ie c it sc) = true ->
        iv = nullptr \/ ie = nullptr).
Proof.
  intro H.
  destruct (H (Some Samples.i_variable) (Samples.value "j") None None
              (Some Samples.empty_scope) eq_refl) as [Hv|He]; discriminate.
Qed.

(** C5, amended.  The two initializer slots of a [ForNode] are independent
    optional slots: from a well-formed [ForNode], populating or clearing
    either slot, with a well-formed child, gives a well-formed [ForNode]
    again, so neither, either or both may be populated.  When both are, the
    variable is listed before the expression. *)
Theorem For_initializers_independent :
  forall (iv : unique_ptr VariableNode) (ie c it : unique_ptr ExpressionNode)
         (sc : unique_ptr ScopeNode) (v : VariableNode) (e : ExpressionNode),
    well_formed_Statement (ForNode iv ie c it sc) = true ->
    well_formed_Variable v = true ->
    well_formed_Expression e = true ->
    well_formed_Statement (ForNode nullptr nullptr c it sc) = true
    /\ well_formed_Statement (ForNode (Some v) nullptr c it sc) = true
    /\ well_formed_Statement (ForNode nullptr (Some e) c it sc) = true
    /\ well_formed_Statement (ForNode (Some v) (Some e) c it sc) = true
    /\ exists rest : list AbstractNode,
         preorder_Statement (ForNode (Some v) (Some e) c it sc)
         = Abstract_Statement (ForNode (Some v) (Some e) c it sc)
           :: preorder_Variable v ++ preorder_Expression e ++ rest.
Proof.
  intros iv ie c it sc v e Hwf Hv He.
  cbn [well_formed_Statement optional] in *. rewrite Hv, He.
  apply andb_true_iff in Hwf as [Hwf Hsc].
  apply andb_true_iff in Hwf as [Hwf Hit].
  apply andb_true_iff in Hwf as [_ Hc].
  rewrite Hc, Hit, Hsc. repeat split.
  eexists. cbn [preorder_Statement list_slot]. reflexivity.
Qed.

Lemma For_initializers_independent_witness :
  well_formed_Statement (ForNode nullptr nullptr nullptr nullptr (Some Samples.empty_scope))
  = true
  /\ well_formed_Variable Samples.i_variable = true
  /\ well_formed_Expression (ValueNode (Samples.token "j")) = true
  /\ well_formed_Statement Samples.for_both = true.
Proof.
  split; [reflexivity|]. split; [reflexivity|]. split; [reflexivity|].
  exact (proj1 (proj2 (proj2 (proj2
    (For_initializers_independent
       nullptr nullptr nullptr nullptr (Some Samples.empty_scope)
       Samples.i_variable (ValueNode (Samples.token "j"))
       eq_refl eq_refl eq_refl))))).
Defined.

(** C8. The object behind [mElse], when there is one, is an [IfNode]: seen
    as a statement it is the [IfNode] the slot holds, of class [IfNode] and
    never of class [ScopeNode].  The [IfNode] that stands for a trailing
    plain [else] has no condition, owns just its body, and is well-formed
    exactly when the body is. *)
Theorem If_else_is_an_If :
  forall (i : IfNode) (s : StatementNode),
    If_else_statement i = Some s ->
    class_of_Statement s = IsIf
    /\ class_of_Statement s <> IsScope
    /\ (exists e : IfNode, s = Statement_If e /\ If_mElse i = Some e)
    /\ (forall body : ScopeNode,
          If_mCondition (plain_else body) = nullptr
          /\ children_If (plain_else body) = [Abstract_Scope body]
          /\ well_formed_If (plain_else body) = well_formed_Scope body).
Proof.
  intros i s Hs. unfold If_else_statement in Hs.
  destruct (If_mElse i) as [e|]; [|discriminate].
  injection Hs as <-. repeat split.
  - discriminate.
  - now exists e.
  - cbn [plain_else well_formed_If optional mandatory].
    now rewrite andb_true_r.
Qed.

Lemma If_else_is_an_If_witness :
  If_else_statement Samples.if_else
  = Some (Statement_If (plain_else Samples.empty_scope))
  /\ class_of_Statement (Statement_If (plain_else Samples.empty_scope)) = IsIf.
Proof.
  split; [reflexivity|].
  exact (proj1 (If_else_is_an_If Samples.if_else eq_refl)).
Defined.


(** ** The traversal on the sample trees *)

Example trace_program_f :
  Outcome_map (@length _) (trace Samples.program_f true) = Completed 10.
Proof. reflexivity. Qed.

Example classes_program_f :
  map class_of (preorder Samples.program_f)
  = [IsBlock; IsFunction; IsParameter; IsType; IsType; IsScope; IsReturn;
     IsBinaryOperator; IsValue; IsValue].
Proof. reflexivity. Qed.

Example trace_a_b_c_d :
  trace (Abstract_Expression Samples.a_b_c_d) true
  = Completed (map Some (preorder_Expression Samples.a_b_c_d))
  /\ map class_of (preorder_Expression Samples.a_b_c_d)
     = [IsIndex; IsCall; IsMemberAccess; IsValue; IsValue; IsValue]
  /\ skipn 3 (preorder_Expression Samples.a_b_c_d)
     = [Abstract_Expression (ValueNode (Samples.token "a"));
        Abstract_Expression (ValueNode (Samples.token "c"));
        Abstract_Expression (ValueNode (Samples.token "d"))].
Proof. repeat split. Qed.

Example trace_for_both :
  map class_of (preorder_Statement Samples.for_both)
  = [IsFor; IsVariable; IsType; IsValue; IsValue; IsScope].
Proof. reflexivity. Qed.

(** The hole in [mScope] is met after the parameter, its type and the
    return type: four callbacks have fired, none fires afterwards. *)
Example trace_f_without_body :
  Outcome_map (map (option_map class_of)) (trace Samples.f_without_body true)
  = Aborted [Some IsFunction; Some IsParameter; Some IsType; Some IsType].
Proof. reflexivity. Qed.

(** The hole in [mCondition] is met first: the body behind it is not
    walked. *)
Example trace_while_without_condition :
  trace (Abstract_Statement Samples.while_without_condition) true
  = Aborted [Some (Abstract_Statement Samples.while_without_condition)]
  /\ length (preorder_Statement Samples.while_without_condition) = 3.
Proof. split; reflexivity. Qed.

Example trace_if_else :
  trace (Abstract_If Samples.if_else) true
  = Completed
      [ Some (Abstract_If Samples.if_else);
        Some (Abstract_Expression (ValueNode (Samples.token "a")));
        Some (Abstract_Scope Samples.empty_scope);
        Some (Abstract_If (plain_else Samples.empty_scope));
        Some (Abstract_Scope Samples.empty_scope) ].
Proof. reflexivity. Qed.

(** A visitor that suppresses every recursion sees the root alone. *)
Example suppressor_if_else :
  logged suppressor (Abstract_If Samples.if_else) true tt
  = Completed [Some (Abstract_If Samples.if_else)].
Proof. reflexivity. Qed.

Example positions_if_else :
  positions (Abstract_If Samples.if_else) = [[]; [0]; [1]; [2]; [2; 0]].
Proof. reflexivity. Qed.

Example positions_variable :
  positions (Abstract_Variable Samples.i_variable) = [[]; [0]; [1]]
  /\ option_map class_of (subnode_at (Abstract_Variable Samples.i_variable) [0])
     = Some IsType.
Proof. split; reflexivity. Qed.
(** ** Runs of [push_back] *)

Lemma push_all_cons {T : Type} (v : unique_vector T) (p : unique_ptr T)
    (ptrs : list (unique_ptr T)) :
  unique_vector.push_all v (p :: ptrs)
  = unique_vector.push_all (fst (unique_vector.push_back v p)) ptrs.
Proof. reflexivity. Qed.

Lemma push_all_filter {T : Type} (ptrs : list (unique_ptr T)) :
  forall v : unique_vector T,
    unique_vector.push_all v ptrs = v ++ filter unique_vector.is_present ptrs.
Proof.
  induction ptrs as [|p ptrs IH]; intro v.
  - symmetry. apply app_nil_r.
  - rewrite push_all_cons, IH. destruct p as [x|]; simpl; [|reflexivity].
    now rewrite <- app_assoc.
Qed.

(** X1. A run of [push_back] calls appends, behind what the container
    held, the non-null pointers of the run in the order they were pushed,
    and drops the null ones; what the container held before is still its
    front.  Two runs in a row are the run of both. *)
Theorem push_all_appends_present :
  forall (T : Type) (v : unique_vector T) (ptrs more : list (unique_ptr T)),
    unique_vector.push_all v ptrs = v ++ filter unique_vector.is_present ptrs
    /\ firstn (length v) (unique_vector.push_all v ptrs) = v
    /\ unique_vector.push_all (unique_vector.push_all v ptrs) more
       = unique_vector.push_all v (ptrs ++ more).
Proof.
  intros T v ptrs more. split; [apply push_all_filter|split].
  - rewrite push_all_filter, firstn_app, Nat.sub_diag, firstn_all.
    simpl. apply app_nil_r.
  - rewrite !push_all_filter, filter_app. symmetry. apply app_assoc.
Qed.

Lemma push_each_spec {T : Type} (ptrs : list (unique_ptr T)) :
  forall v : unique_vector T,
    unique_vector.push_each v ptrs
    = (unique_vector.push_all v ptrs, map unique_vector.is_present ptrs).
Proof.
  induction ptrs as [|p ptrs IH]; intro v; [reflexivity|].
  cbn [unique_vector.push_each]. rewrite push_all_cons.
  destruct p as [x|]; cbn [unique_vector.push_back fst]; rewrite IH; reflexivity.
Qed.

Lemma length_filter_count {A : Type} (f : A -> bool) (l : list A) :
  length (filter f l) = count_occ bool_dec (map f l) true.
Proof.
  induction l as [|a l IH]; [reflexivity|]. simpl.
  destruct (f a); simpl; now rewrite IH.
Qed.

(** X2. The results of a run of [push_back] calls tell what was stored:
    the k-th result is [true] exactly when the k-th pointer is non-null,
    and the container has grown by the number of [true] results. *)
Theorem push_each_results :
  forall (T : Type) (v : unique_vector T) (ptrs : list (unique_ptr T)),
    let run := unique_vector.push_each v ptrs in
    fst run = unique_vector.push_all v ptrs
    /\ snd run = map unique_vector.is_present ptrs
    /\ length (fst run) = length v + count_occ bool_dec (snd run) true.
Proof.
  intros T v ptrs run. unfold run. rewrite push_each_spec. cbn [fst snd].
  split; [reflexivity|split; [reflexivity|]].
  now rewrite push_all_filter, length_app, length_filter_count.
Qed.

(** X3. Where a pushed element ends up: the pointer pushed by the j-th
    call of a run, when it is non-null, is found at the index that is the
    length the container had before the run plus the number of non-null
    pointers pushed before it. *)
Theorem push_all_lookup :
  forall (T : Type) (v : unique_vector T) (ptrs : list (unique_ptr T)) (j : nat) (x : T),
    nth_error ptrs j = Some (Some x) ->
    nth_error (unique_vector.push_all v ptrs)
      (length v + length (filter unique_vector.is_present (firstn j ptrs)))
    = Some (Some x).
Proof.
  intros T v ptrs j x Hj.
  rewrite push_all_filter.
  rewrite nth_error_app2 by lia.
  replace (length v + length (filter unique_vector.is_present (firstn j ptrs)) - length v)
    with (length (filter unique_vector.is_present (firstn j ptrs))) by lia.
  rewrite <- (firstn_skipn j ptrs) at 1. rewrite filter_app.
  rewrite nth_error_app2 by lia. rewrite Nat.sub_diag.
  assert (Hskip : skipn j ptrs = Some x :: skipn (S j) ptrs).
  { clear v. revert ptrs Hj. induction j as [|j IH]; intros [|p ptrs] Hj;
      try discriminate; simpl in *.
    - now injection Hj as ->.
    - now apply IH. }
  rewrite Hskip. reflexivity.
Qed.

Lemma push_all_lookup_witness :
  nth_error [Some 7; nullptr; Some 9] 2 = Some (Some 9)
  /\ nth_error (unique_vector.push_all [Some 1] [Some 7; nullptr; Some 9]) 2
     = Some (Some 9).
Proof.
  split; [reflexivity|].
  exact (push_all_lookup [Some 1] [Some 7; nullptr; Some 9] 2 eq_refl).
Defined.

